(** * zrender/graphic/Path: caching, bounds, hit test and extension

    A shallow embedding of [src/graphic/Path.js].

    - JavaScript numbers are modelled by the real numbers of the Standard
      Library ([R]); [Math.abs], [Math.max] and [Math.sqrt] are [Rabs],
      [Rmax] and [sqrt]. [getLineScale] is also transcribed on binary64
      floats and evaluated there on the matrices the statements name.
    - A method is a function on the receiver [this] that also returns the
      calls it makes on its collaborators (the canvas context, the path
      proxy, the gradient, the contain predicates) as a list of events, in
      program order.
    - [dirty] follows the [__clipTarget] reference to another object, so it
      runs on a store of objects indexed by identifiers. Every object of the
      store is a path: [Path.prototype.dirty] is the only [dirty] at hand. *)

From Stdlib Require Import Floats.
From Stdlib Require Import Reals Lra.
From stdpp Require Import base option list strings gmap fin_maps.

Set Default Proof Using "Type".

(** ** Numbers *)

(** [x > y] on numbers, as a boolean. *)
Definition Rgtb (x y : R) : bool := if Rgt_dec x y then true else false.

(** ** The transform matrix: an array of six numbers, [m[0]] to [m[5]]. *)

Module Matrix.
Record t := mk { m0 : R; m1 : R; m2 : R; m3 : R; m4 : R; m5 : R }.
Definition identity : t := mk 1 0 0 1 0 0.
End Matrix.

(** [getLineScale(m)]: the determinant of [m] says how much the area is
    enlarged, so its square root is used as a scale factor for the width. *)
Definition getLineScale (m : option Matrix.t) : R :=
  match m with
  | Some m =>
      if Rgtb (Rabs (Matrix.m0 m - 1)) 1e-10
         && Rgtb (Rabs (Matrix.m3 m - 1)) 1e-10
      then sqrt (Rabs (Matrix.m0 m * Matrix.m3 m - Matrix.m2 m * Matrix.m1 m))
      else 1%R
  | None => 1%R
  end.

(** The same function on binary64 floats, the numbers the code runs on. *)
Module Matrix64.
Record t := mk { m0 : float; m1 : float; m2 : float; m3 : float; m4 : float; m5 : float }.
End Matrix64.

#[warning="-inexact-float"]
Definition getLineScale64 (m : option Matrix64.t) : float :=
  match m with
  | Some m =>
      if PrimFloat.ltb 1e-10 (PrimFloat.abs (Matrix64.m0 m - 1)%float)
         && PrimFloat.ltb 1e-10 (PrimFloat.abs (Matrix64.m3 m - 1)%float)
      then PrimFloat.sqrt
             (PrimFloat.abs (Matrix64.m0 m * Matrix64.m3 m
                             - Matrix64.m2 m * Matrix64.m1 m)%float)
      else 1%float
  | None => 1%float
  end.

(** ** Style *)

(** A fill or stroke paint: absent ([null] or [undefined]), a colour string
    (the string ["none"] included), or a [Gradient] object. *)
Inductive Paint :=
  | PaintAbsent
  | PaintColor (c : string)
  | PaintGradient (g : nat).

Module Style.
Record t := mk {
  fill : Paint;
  stroke : Paint;
  lineWidth : R;
  lineDash : option (list R);
  lineDashOffset : R;
  text : option string
}.
End Style.

(** [paint != null && paint !== 'none'] *)
Definition paintActive (p : Paint) : bool :=
  match p with
  | PaintAbsent => false
  | PaintColor c => negb (String.eqb c "none")
  | PaintGradient _ => true
  end.

Definition pathHasFill (style : Style.t) : bool :=
  paintActive (Style.fill style).

Definition pathHasStroke (style : Style.t) : bool :=
  paintActive (Style.stroke style) && Rgtb (Style.lineWidth style) 0.

(** Truthiness of [style.text]: absent and the empty string are falsy. *)
Definition textTruthy (t : option string) : bool :=
  match t with
  | Some s => negb (String.eqb s "")
  | None => false
  end.

(** ** Bounding rectangle *)

Module BoundingRect.
Record t := mk { x : R; y : R; width : R; height : R }.
End BoundingRect.

(** The four updates of [getBoundingRect] for a stroked path:
    [rect.width += w; rect.height += w; rect.x -= w / 2; rect.y -= w / 2]. *)
Definition considerLineWidth (rect : BoundingRect.t) (w : R) : BoundingRect.t :=
  BoundingRect.mk
    (BoundingRect.x rect - w / 2)
    (BoundingRect.y rect - w / 2)
    (BoundingRect.width rect + w)
    (BoundingRect.height rect + w).

(** [Math.max(lineWidth * lineScale, 5) / lineScale] *)
Definition effectiveLineWidth (lineWidth : R) (m : option Matrix.t) : R :=
  let lineScale := getLineScale m in
  (Rmax (lineWidth * lineScale) 5 / lineScale)%R.

(** ** Events: the calls a method makes on its collaborators *)

Inductive Event :=
  | CtxSave
  | CtxRestore
  | StyleBind
  | SetTransform
  | UpdateCanvasGradient (g : nat)
  | ProxyBeginPath (withCtx : bool)
  | ProxySetLineDash (lineDash : list R)
  | ProxySetLineDashOffset (offset : R)
  | BuildPath
  | CtxBeginPath
  | ProxyRebuildPath
  | ProxyFill
  | ProxyStroke
  | CtxSetLineDash (lineDash : list R)
  | CtxLineDashOffset (offset : R)
  | DrawRectText (rect : BoundingRect.t)
  | ContainStroke (lineWidth x y : R)
  | ContainFill (x y : R)
  | DirtyCall (arg : option bool)
  | ZrRefresh.

(** Identifiers of the objects of the store. *)
Definition ident := nat.

Section PathModel.

(** The commands a geometry builder records and the values a shape holds
    are left open: they belong to the shape kinds, not to [Path]. *)
Context {Cmd Value : Type}.

(** ** The path proxy *)

(** Modelled from the spec: the geometry buffer ([core/PathProxy]) is not
    part of the sources at hand. It holds the recorded path-construction
    commands and the dash configuration of a software-dashed recording; its
    begin operation resets it before the builder writes new commands. *)
Record PathProxy := mkProxy {
  data : list Cmd;
  proxyLineDash : option (list R);
  proxyLineDashOffset : R
}.

(** [new PathProxy()] and the reset done by [beginPath]. *)
Definition emptyProxy : PathProxy := mkProxy [] None 0.

Definition proxySetLineDash (lineDash : list R) (px : PathProxy) : PathProxy :=
  mkProxy (data px) (Some lineDash) (proxyLineDashOffset px).

Definition proxySetLineDashOffset (offset : R) (px : PathProxy) : PathProxy :=
  mkProxy (data px) (proxyLineDash px) offset.

Definition proxyRecord (cmds : list Cmd) (px : PathProxy) : PathProxy :=
  mkProxy (data px ++ cmds) (proxyLineDash px) (proxyLineDashOffset px).

(** ** The Path object *)

Record Path := mkPath {
  type : string;
  style : Style.t;
  shape : option (gmap string Value);
  path : PathProxy;
  transform : option Matrix.t;
  __dirtyPath : bool;
  __dirty : bool;
  _rect : option BoundingRect.t;
  __zr : bool;
  __clipTarget : option ident;
  (** the [buildPath] method of the object's kind: the commands it writes
      for a shape; [Path.prototype.buildPath] writes none *)
  buildPath : option (gmap string Value) -> list Cmd
}.

Definition set_shape (v : option (gmap string Value)) (P : Path) : Path :=
  mkPath (type P) (style P) v (path P) (transform P) (__dirtyPath P)
    (__dirty P) (_rect P) (__zr P) (__clipTarget P) (buildPath P).

Definition set_path (v : PathProxy) (P : Path) : Path :=
  mkPath (type P) (style P) (shape P) v (transform P) (__dirtyPath P)
    (__dirty P) (_rect P) (__zr P) (__clipTarget P) (buildPath P).

Definition set_dirtyPath (v : bool) (P : Path) : Path :=
  mkPath (type P) (style P) (shape P) (path P) (transform P) v
    (__dirty P) (_rect P) (__zr P) (__clipTarget P) (buildPath P).

Definition set_dirty (v : bool) (P : Path) : Path :=
  mkPath (type P) (style P) (shape P) (path P) (transform P) (__dirtyPath P)
    v (_rect P) (__zr P) (__clipTarget P) (buildPath P).

Definition set_rect (v : option BoundingRect.t) (P : Path) : Path :=
  mkPath (type P) (style P) (shape P) (path P) (transform P) (__dirtyPath P)
    (__dirty P) v (__zr P) (__clipTarget P) (buildPath P).

(** ** Collaborators outside [Path.js], taken as parameters *)

(** [PathProxy.prototype.getBoundingRect]: the raw bounds of the recording,
    a fresh rectangle at each call. *)
Variable proxyBoundingRect : PathProxy -> BoundingRect.t.
(** [BoundingRect.prototype.contain] *)
Variable rectContain : BoundingRect.t -> R -> R -> bool.
(** [pathContain.containStroke(pathData, lineWidth, x, y)] *)
Variable containStroke : list Cmd -> R -> R -> R -> bool.
(** [pathContain.contain(pathData, x, y)] *)
Variable containFill : list Cmd -> R -> R -> bool.
(** [Element.prototype.transformCoordToLocal] *)
Variable transformCoordToLocal : option Matrix.t -> R -> R -> R * R.

(** ** Methods: state passing on [this], with the events emitted *)

Definition Meth (A : Type) : Type := Path -> A * Path * list Event.

Definition ret {A} (a : A) : Meth A := fun P => (a, P, []).

Definition bind {A B} (m : Meth A) (k : A -> Meth B) : Meth B :=
  fun P =>
    let '(a, P1, e1) := m P in
    let '(b, P2, e2) := k a P1 in
    (b, P2, e1 ++ e2).

Definition gets {A} (f : Path -> A) : Meth A := fun P => (f P, P, []).

Definition modify (f : Path -> Path) : Meth unit := fun P => (tt, f P, []).

Definition emit (e : Event) : Meth unit := fun P => (tt, P, [e]).

Definition when (b : bool) (m : Meth unit) : Meth unit :=
  if b then m else ret tt.

Local Notation "x <- m ;; k" := (bind m (fun x => k))
  (at level 100, m at next level, right associativity).
Local Notation "m ;; k" := (bind m (fun _ => k))
  (at level 100, right associativity).

(** [path.beginPath(ctx)] and [path.beginPath()] *)
Definition proxyBeginPath (withCtx : bool) : Meth unit :=
  emit (ProxyBeginPath withCtx) ;;
  modify (set_path emptyProxy).

(** [this.buildPath(path, this.shape)] *)
Definition callBuildPath : Meth unit :=
  emit BuildPath ;;
  build <- gets buildPath ;;
  sh <- gets shape ;;
  px <- gets path ;;
  modify (set_path (proxyRecord (build sh) px)).

Definition getBoundingRect : Meth BoundingRect.t :=
  cached <- gets _rect ;;
  match cached with
  | Some rect => ret rect
  | None =>
      (* if (this.__dirtyPath) { path.beginPath(); this.buildPath(...); } *)
      dirtyPath <- gets __dirtyPath ;;
      when dirtyPath (proxyBeginPath false ;; callBuildPath) ;;
      (* this._rect = path.getBoundingRect(); *)
      px <- gets path ;;
      let raw := proxyBoundingRect px in
      modify (set_rect (Some raw)) ;;
      st <- gets style ;;
      if pathHasStroke st then
        m <- gets transform ;;
        let w := effectiveLineWidth (Style.lineWidth st) m in
        let rect := considerLineWidth raw w in
        modify (set_rect (Some rect)) ;;
        ret rect
      else ret raw
  end.

(** Modelled from the spec: [Gradient.prototype.updateCanvasGradient] is not
    part of the sources at hand; it resolves the gradient against the current
    bounding rect of the target, which it asks the target for. *)
Definition updateCanvasGradient (g : nat) : Meth unit :=
  emit (UpdateCanvasGradient g) ;;
  _ <- getBoundingRect ;;
  ret tt.

(** [hasPaint && (paint instanceof Gradient) &&
     paint.updateCanvasGradient(this, ctx)] *)
Definition updateIfGradient (hasPaint : bool) (p : Paint) : Meth unit :=
  match p with
  | PaintGradient g => when hasPaint (updateCanvasGradient g)
  | _ => ret tt
  end.

(** [brush(ctx)]; [ctxLineDash] is [!!ctx.setLineDash]. *)
Definition brush (ctxLineDash : bool) : Meth unit :=
  emit CtxSave ;;
  st <- gets style ;;
  let hasStroke := pathHasStroke st in
  let hasFill := pathHasFill st in
  (* if (this.__dirtyPath) { update the gradients } *)
  dirtyPath <- gets __dirtyPath ;;
  when dirtyPath
    (updateIfGradient hasFill (Style.fill st) ;;
     updateIfGradient hasStroke (Style.stroke st)) ;;
  emit StyleBind ;;
  emit SetTransform ;;
  let lineDash := Style.lineDash st in
  let lineDashOffset := Style.lineDashOffset st in
  (* if (this.__dirtyPath || (lineDash && !ctxLineDash && hasStroke)) *)
  dirtyPath <- gets __dirtyPath ;;
  (if dirtyPath || (bool_decide (is_Some lineDash) && negb ctxLineDash && hasStroke)
   then
     proxyBeginPath true ;;
     (* if (lineDash && !ctxLineDash) { path.setLineDash(lineDash); ... } *)
     match lineDash with
     | Some ld =>
         when (negb ctxLineDash)
           (modify (fun P => set_path (proxySetLineDash ld (path P)) P) ;;
            emit (ProxySetLineDash ld) ;;
            modify (fun P => set_path (proxySetLineDashOffset lineDashOffset (path P)) P) ;;
            emit (ProxySetLineDashOffset lineDashOffset))
     | None => ret tt
     end ;;
     callBuildPath ;;
     modify (set_dirtyPath false)
   else
     emit CtxBeginPath ;;
     emit ProxyRebuildPath) ;;
  when hasFill (emit ProxyFill) ;;
  (* if (lineDash && ctxLineDash) { ctx.setLineDash(lineDash); ... } *)
  match lineDash with
  | Some ld =>
      when ctxLineDash
        (emit (CtxSetLineDash ld) ;; emit (CtxLineDashOffset lineDashOffset))
  | None => ret tt
  end ;;
  when hasStroke (emit ProxyStroke) ;;
  (* if (style.text) { this.drawRectText(ctx, this.getBoundingRect()); } *)
  when (textTruthy (Style.text st))
    (rect <- getBoundingRect ;; emit (DrawRectText rect)) ;;
  emit CtxRestore.

Definition contain (x y : R) : Meth bool :=
  m <- gets transform ;;
  let localPos := transformCoordToLocal m x y in
  rect <- getBoundingRect ;;
  st <- gets style ;;
  let x := fst localPos in
  let y := snd localPos in
  if rectContain rect x y then
    px <- gets path ;;
    let pathData := data px in
    (* if (pathHasFill(style)) { return pathContain.contain(...); }
       return false; *)
    let fillTest : Meth bool :=
      if pathHasFill st then
        emit (ContainFill x y) ;;
        ret (containFill pathData x y)
      else ret false in
    if pathHasStroke st then
      m <- gets transform ;;
      let lineWidth := effectiveLineWidth (Style.lineWidth st) m in
      emit (ContainStroke lineWidth x y) ;;
      if containStroke pathData lineWidth x y then ret true
      else fillTest
    else fillTest
  else ret false.

(** ** The store of objects *)

Record World := mkWorld {
  ents : gmap ident Path;
  (** the calls made so far, oldest first, each with its receiver *)
  log : list (ident * Event)
}.

(** How a call ends: it returns, it exhausts the call stack while walking
    [__clipTarget] references, or (in the model only) its receiver names no
    object of the store. *)
Inductive Completion (A : Type) :=
  | Returned (a : A)
  | RangeError
  | Unbound.
Global Arguments Returned {A} a.
Global Arguments RangeError {A}.
Global Arguments Unbound {A}.

(** Write back the receiver and append the events of the call. *)
Definition commit (p : ident) (P : Path) (evs : list Event) (w : World) : World :=
  mkWorld (<[p := P]> (ents w)) (log w ++ map (pair p) evs).

(** Run a method on the object [p] of the store. *)
Definition invoke {A} (p : ident) (m : Meth A) (w : World) : Completion A * World :=
  match ents w !! p with
  | Some P => let '(a, P', evs) := m P in (Returned a, commit p P' evs w)
  | None => (Unbound, w)
  end.

(** [dirty(dirtyPath)]; [arg] is [None] when the call has no argument and
    [Some b] when it has one of truthiness [b]. [stack] is the number of
    nested calls along [__clipTarget] references the call stack still has
    room for. *)
Fixpoint dirty (stack : nat) (p : ident) (arg : option bool) (w : World)
    : Completion unit * World :=
  match ents w !! p with
  | Some P =>
      (* if (arguments.length === 0) { dirtyPath = true; } *)
      let dirtyPath := match arg with None => true | Some b => b end in
      (* if (dirtyPath) { this.__dirtyPath = dirtyPath; this._rect = null; } *)
      let P1 := if dirtyPath then set_rect None (set_dirtyPath true P) else P in
      (* this.__dirty = true; *)
      let P2 := set_dirty true P1 in
      (* this.__zr && this.__zr.refresh(); *)
      let evs := DirtyCall arg :: (if __zr P2 then [ZrRefresh] else []) in
      let w' := commit p P2 evs w in
      (* if (this.__clipTarget) { this.__clipTarget.dirty(); } *)
      match __clipTarget P2 with
      | Some e =>
          match stack with
          | S n => dirty n e None w'
          | O => (RangeError, w')
          end
      | None => (Returned tt, w')
      end
  | None => (Unbound, w)
  end.

(** The first argument of [setShape]: an object, whose entries are copied,
    or a key. *)
Inductive ShapeKey :=
  | KeyObject (o : gmap string Value)
  | KeyName (k : string).

(** [for (var name in key) { shape[name] = key[name]; }] *)
Definition assignAll (key shape0 : gmap string Value) : gmap string Value :=
  map_fold (fun name v acc => <[name := v]> acc) shape0 key.

Definition setShape (stack : nat) (p : ident) (key : ShapeKey) (value : Value)
    (w : World) : Completion ident * World :=
  match ents w !! p with
  | Some P =>
      match shape P with
      | Some sh =>
          let sh' :=
            match key with
            | KeyObject o => assignAll o sh
            | KeyName k => <[k := value]> sh
            end in
          let w1 := commit p (set_shape (Some sh') P) [] w in
          match dirty stack p (Some true) w1 with
          | (Returned _, w2) => (Returned p, w2)
          | (RangeError, w2) => (RangeError, w2)
          | (Unbound, w2) => (Unbound, w2)
          end
      | None => (Returned p, w)
      end
  | None => (Unbound, w)
  end.

(** ** [attrKV] *)

(** The value [undefined], which [setShape] stores when it is called with
    one argument. *)
Variable undefinedValue : Value.

(** [Displayable.prototype.attrKV.call(this, key, value)], outside
    [Path.js]. *)
Variable baseAttrKV :
  nat -> ident -> string -> ShapeKey -> World -> Completion unit * World.

(** [attrKV(key, value)]. The value is an object or, as [setShape] will use
    it, a property name. The result of [setShape] is dropped. *)
Definition attrKV (stack : nat) (p : ident) (key : string) (value : ShapeKey)
    (w : World) : Completion unit * World :=
  if String.eqb key "shape" then
    match setShape stack p value undefinedValue w with
    | (Returned _, w') => (Returned tt, w')
    | (RangeError, w') => (RangeError, w')
    | (Unbound, w') => (Unbound, w')
    end
  else baseAttrKV stack p key value w.

(** ** Construction and [Path.extend] *)

(** Modelled from the spec: the base constructor ([Displayable]) and the
    style class are not part of the sources at hand. Construction options
    supply the shape mapping (possibly none) and the style. *)
Record Opts := mkOpts {
  opts_shape : option (gmap string Value);
  opts_style : Style.t
}.

(** [new Path(opts)]: the attributes copied from the options, a fresh path
    proxy, and the prototype's [type], [__dirtyPath] and [buildPath]. *)
Definition newPath (opts : Opts) : Path :=
  mkPath "path" (opts_style opts) (opts_shape opts) emptyProxy None
    true true None false None (fun _ => []).

(** [style.extendFrom(defaults.style, false)] of the style class. *)
Variable styleExtendFrom : Style.t -> Style.t -> Style.t.

(** The argument of [Path.extend]. The entries other than [style] and
    [shape] go to the prototype of the new kind. *)
Record Defaults := mkDefaults {
  def_type : option string;
  def_style : option Style.t;
  def_shape : option (gmap string Value);
  def_buildPath : option (option (gmap string Value) -> list Cmd);
  (** [init.call(this, opts)]: arbitrary code on the new object *)
  def_init : option (Opts -> Path -> Path)
}.

(** The loop over [defaultShape]:
    [if (!thisShape.hasOwnProperty(name) && defaultShape.hasOwnProperty(name))
       thisShape[name] = defaultShape[name];] *)
Definition extendShape (defaultShape thisShape : gmap string Value)
    : gmap string Value :=
  map_fold
    (fun name v acc =>
       if bool_decide (is_Some (acc !! name)) then acc else <[name := v]> acc)
    thisShape defaultShape.

(** [new Sub(opts)] for [Sub = Path.extend(defaults)]. *)
Definition extend (defaults : Defaults) (opts : Opts) : Path :=
  (* Path.call(this, opts), on an object whose prototype is Sub.prototype *)
  let P0 := newPath opts in
  let P1 :=
    mkPath (default (type P0) (def_type defaults)) (style P0) (shape P0)
      (path P0) (transform P0) (__dirtyPath P0) (__dirty P0) (_rect P0)
      (__zr P0) (__clipTarget P0)
      (default (buildPath P0) (def_buildPath defaults)) in
  (* if (defaults.style) { this.style.extendFrom(defaults.style, false); } *)
  let P2 :=
    match def_style defaults with
    | Some ds =>
        mkPath (type P1) (styleExtendFrom (style P1) ds) (shape P1) (path P1)
          (transform P1) (__dirtyPath P1) (__dirty P1) (_rect P1) (__zr P1)
          (__clipTarget P1) (buildPath P1)
    | None => P1
    end in
  (* var defaultShape = defaults.shape; if (defaultShape) { ... } *)
  let P3 :=
    match def_shape defaults with
    | Some defaultShape =>
        (* this.shape = this.shape || {}; *)
        let thisShape := default ∅ (shape P2) in
        set_shape (Some (extendShape defaultShape thisShape)) P2
    | None => P2
    end in
  (* defaults.init && defaults.init.call(this, opts); *)
  match def_init defaults with
  | Some init => init opts P3
  | None => P3
  end.

(** ** Sequences of public operations *)

Inductive Op :=
  | OpBrush (p : ident) (ctxLineDash : bool)
  | OpGetBoundingRect (p : ident)
  | OpContain (p : ident) (x y : R)
  | OpSetShape (p : ident) (key : ShapeKey) (value : Value)
  | OpDirty (p : ident) (arg : option bool).

(** The store after one operation. A call that ends in a [RangeError]
    leaves the store as the part of the call that ran left it. *)
Definition step (stack : nat) (o : Op) (w : World) : World :=
  match o with
  | OpBrush p ctxLineDash => snd (invoke p (brush ctxLineDash) w)
  | OpGetBoundingRect p => snd (invoke p getBoundingRect w)
  | OpContain p x y => snd (invoke p (contain x y) w)
  | OpSetShape p key value => snd (setShape stack p key value w)
  | OpDirty p arg => snd (dirty stack p arg w)
  end.

Definition run (stack : nat) (ops : list Op) (w : World) : World :=
  fold_left (fun w o => step stack o w) ops w.

(** Does the operation run [getBoundingRect], [contain] or [brush] on [q]? *)
Definition readsGeometry (q : ident) (o : Op) : bool :=
  match o with
  | OpBrush p _ | OpGetBoundingRect p | OpContain p _ _ => bool_decide (p = q)
  | _ => false
  end.

(** ** Vocabulary of the statements *)

(** The scale factor as the specification words it: exactly one when the
    transform is absent or when both [a] and [d] are within [1e-10] of one,
    the square root of the determinant's magnitude otherwise. *)
Definition lineScaleAsSpecified (m : option Matrix.t) : R :=
  match m with
  | Some m =>
      if negb (Rgtb (Rabs (Matrix.m0 m - 1)) 1e-10)
         && negb (Rgtb (Rabs (Matrix.m3 m - 1)) 1e-10)
      then 1%R
      else sqrt (Rabs (Matrix.m0 m * Matrix.m3 m - Matrix.m2 m * Matrix.m1 m))
  | None => 1%R
  end.

(** The geometry the bounds are taken from: rebuilt from the shape when the
    path is dirty, the recorded one otherwise. *)
Definition currentGeometry (P : Path) : PathProxy :=
  if __dirtyPath P
  then proxyRecord (buildPath P (shape P)) emptyProxy
  else path P.

(** What [getBoundingRect] computes when nothing is cached. *)
Definition boundsOf (P : Path) : BoundingRect.t :=
  let raw := proxyBoundingRect (currentGeometry P) in
  if pathHasStroke (style P)
  then considerLineWidth raw
         (effectiveLineWidth (Style.lineWidth (style P)) (transform P))
  else raw.

(** The second case of the rebuild test of [brush]:
    [lineDash && !ctxLineDash && hasStroke]. *)
Definition softwareDash (ctxLineDash : bool) (st : Style.t) : bool :=
  bool_decide (is_Some (Style.lineDash st)) && negb ctxLineDash && pathHasStroke st.

(** What a method leaves alone: everything but the recorded path and the
    cached rect. *)
Definition keeps (P P' : Path) : Prop :=
  type P' = type P /\ style P' = style P /\ shape P' = shape P
  /\ transform P' = transform P /\ __dirtyPath P' = __dirtyPath P
  /\ __dirty P' = __dirty P /\ __zr P' = __zr P
  /\ __clipTarget P' = __clipTarget P /\ buildPath P' = buildPath P.

(** The receiver after the body of [dirty], and the events of the body. *)
Definition markDirty (arg : option bool) (P : Path) : Path :=
  let dirtyPath := match arg with None => true | Some b => b end in
  set_dirty true (if dirtyPath then set_rect None (set_dirtyPath true P) else P).

Definition dirtyEvents (arg : option bool) (P : Path) : list Event :=
  DirtyCall arg :: (if __zr P then [ZrRefresh] else []).

(** What calls of [dirty] can have done to an object: nothing, a repaint
    mark, or a full invalidation. *)
Definition dirtied (P P' : Path) : Prop :=
  P' = P \/ P' = markDirty (Some false) P \/ P' = markDirty None P.

(** Nothing is cached for the geometry of [p]. *)
Definition invalidated (w : World) (p : ident) : Prop :=
  forall P, ents w !! p = Some P -> _rect P = None /\ __dirtyPath P = true.

(** The objects a call of [dirty] on [p] visits with room for [stack] nested
    calls. *)
Fixpoint clipChain (stack : nat) (p : ident) (m : gmap ident Path) : list ident :=
  match m !! p with
  | Some P =>
      p :: match __clipTarget P, stack with
           | Some e, S n => clipChain n e m
           | _, _ => []
           end
  | None => []
  end.

(** The walk along [__clipTarget] from [p] ends within [stack] nested calls. *)
Fixpoint chainEnds (stack : nat) (p : ident) (m : gmap ident Path) : bool :=
  match m !! p with
  | Some P =>
      match __clipTarget P, stack with
      | None, _ => true
      | Some e, S n => chainEnds n e m
      | Some _, O => false
      end
  | None => false
  end.

(** What [brush] leaves alone: everything but the recorded path, the cached
    rect and [__dirtyPath]. *)
Definition frame (P P' : Path) : Prop :=
  type P' = type P /\ style P' = style P /\ shape P' = shape P
  /\ transform P' = transform P /\ __dirty P' = __dirty P
  /\ __zr P' = __zr P /\ __clipTarget P' = __clipTarget P
  /\ buildPath P' = buildPath P.

(** The rebuild test of [brush]. *)
Definition rebuilds (ctxLineDash : bool) (P : Path) : bool :=
  __dirtyPath P || softwareDash ctxLineDash (style P).

(** The recording a rebuild leaves: the dash configuration when the dashes
    are drawn in software, then the commands of [buildPath]. *)
Definition rebuiltProxy (ctxLineDash : bool) (P : Path) : PathProxy :=
  proxyRecord (buildPath P (shape P))
    (match Style.lineDash (style P) with
     | Some ld =>
         if ctxLineDash then emptyProxy
         else proxySetLineDashOffset (Style.lineDashOffset (style P))
                (proxySetLineDash ld emptyProxy)
     | None => emptyProxy
     end).

(** The calls of one [brush], given the calls [eG] of the gradient updates
    and the rect [r] handed to [drawRectText]. *)
Definition brushTrace (ctxLineDash : bool) (P : Path) (eG : list Event)
    (r : BoundingRect.t) : list Event :=
  let st := style P in
  CtxSave :: eG ++ [StyleBind; SetTransform]
  ++ (if rebuilds ctxLineDash P
      then ProxyBeginPath true
           :: match Style.lineDash st with
              | Some ld =>
                  if ctxLineDash then []
                  else [ProxySetLineDash ld;
                        ProxySetLineDashOffset (Style.lineDashOffset st)]
              | None => []
              end
           ++ [BuildPath]
      else [CtxBeginPath; ProxyRebuildPath])
  ++ (if pathHasFill st then [ProxyFill] else [])
  ++ match Style.lineDash st with
     | Some ld =>
         if ctxLineDash
         then [CtxSetLineDash ld; CtxLineDashOffset (Style.lineDashOffset st)]
         else []
     | None => []
     end
  ++ (if pathHasStroke st then [ProxyStroke] else [])
  ++ (if textTruthy (Style.text st) then [DrawRectText r] else [])
  ++ [CtxRestore].

(** The events a gradient update may consist of. *)
Definition gradientEvent (e : Event) : bool :=
  match e with
  | UpdateCanvasGradient _ | ProxyBeginPath false | BuildPath => true
  | _ => false
  end.

Definition isSaveRestore (e : Event) : bool :=
  match e with CtxSave | CtxRestore => true | _ => false end.

Definition isFillStroke (e : Event) : bool :=
  match e with ProxyFill | ProxyStroke => true | _ => false end.

Definition isCtxDash (e : Event) : bool :=
  match e with CtxSetLineDash _ | CtxLineDashOffset _ => true | _ => false end.

Definition isProxyDash (e : Event) : bool :=
  match e with ProxySetLineDash _ | ProxySetLineDashOffset _ => true | _ => false end.

Definition isDrawRectText (e : Event) : bool :=
  match e with DrawRectText _ => true | _ => false end.

(** The recorded commands are those [buildPath] writes for the current
    shape, whenever the path is clean or a rect is cached. *)
Definition coherent (P : Path) : Prop :=
  __dirtyPath P = false \/ is_Some (_rect P) ->
  data (path P) = buildPath P (shape P).

(** The objects a call of [dirty] on [p] reaches through [__clipTarget]. *)
Definition clipTail (stack : nat) (p : ident) (m : gmap ident Path) : list ident :=
  match m !! p with
  | Some P =>
      match __clipTarget P, stack with
      | Some e, S n => clipChain n e m
      | _, _ => []
      end
  | None => []
  end.

(** The calls of one [dirty], read off the store before the call. *)
Fixpoint chainEvents (stack : nat) (p : ident) (arg : option bool)
    (m : gmap ident Path) : list (ident * Event) :=
  match m !! p with
  | Some P =>
      map (pair p) (dirtyEvents arg P)
      ++ match __clipTarget P, stack with
         | Some e, S n => chainEvents n e None m
         | _, _ => []
         end
  | None => []
  end.

(** Every [__clipTarget] names an object of the store. *)
Definition closedStore (m : gmap ident Path) : Prop :=
  forall p P e, m !! p = Some P -> __clipTarget P = Some e -> is_Some (m !! e).

(** What no public operation changes on an object: its type, style,
    transform, attachment, clip target and builder; and [__dirty], once set,
    stays set. *)
Definition untouched (Q Q' : Path) : Prop :=
  type Q' = type Q /\ style Q' = style Q /\ transform Q' = transform Q
  /\ __zr Q' = __zr Q /\ __clipTarget Q' = __clipTarget Q
  /\ buildPath Q' = buildPath Q
  /\ (__dirty Q = true -> __dirty Q' = true).

(** One step of an object's life under the public operations. *)
Definition evolves (Q Q' : Path) : Prop :=
  untouched Q Q' /\ (coherent Q -> coherent Q').

(** The calls of the body of [dirty] on the object [q] called with [a]. *)
Definition callsOn (m : gmap ident Path) (qa : ident * option bool)
    : list (ident * Event) :=
  match m !! fst qa with
  | Some Q => map (pair (fst qa)) (dirtyEvents (snd qa) Q)
  | None => []
  end.

(** The objects [dirty] is called on, each with the argument of its call:
    the receiver with the caller's, the others with none. *)
Definition chainCalls (stack : nat) (p : ident) (arg : option bool)
    (m : gmap ident Path) : list (ident * option bool) :=
  match clipChain stack p m with
  | [] => []
  | q :: tail => (q, arg) :: map (fun e => (e, None)) tail
  end.

(** ** Shape objects held by several paths *)

(** [this.shape] is a reference to an object. Paths that were given one
    shape object hold the same object, and [setShape] writes into that object
    in place ([shape[name] = key[name]], [shape[key] = value]) and marks only
    the receiver. A store with references has the paths, for each path the
    shape object it refers to (none for a path without a shape), and the
    shape objects. The [shape] of a path is read through its reference; the
    [shape] field of a path of [paths] is the value last read. *)
Definition loc := nat.

Record Store := mkStore {
  paths : World;
  shapeRef : gmap ident loc;
  shapeObjects : gmap loc (gmap string Value)
}.

(** [this.shape] of the path [p]. *)
Definition shapeAt (refs : gmap ident loc) (objs : gmap loc (gmap string Value))
    (p : ident) : option (gmap string Value) :=
  match refs !! p with
  | Some l => objs !! l
  | None => None
  end.

Definition loadShapes (refs : gmap ident loc) (objs : gmap loc (gmap string Value))
    (m : gmap ident Path) : gmap ident Path :=
  map_imap (fun p P => Some (set_shape (shapeAt refs objs p) P)) m.

(** The paths as their methods see them. *)
Definition view (s : Store) : World :=
  mkWorld (loadShapes (shapeRef s) (shapeObjects s) (ents (paths s)))
    (log (paths s)).

(** [setShape(key, value)] on a store with references: the write goes to the
    object [this.shape] refers to, and [this.dirty(true)] follows. *)
Definition setShapeIn (stack : nat) (p : ident) (key : ShapeKey) (value : Value)
    (s : Store) : Completion ident * Store :=
  match ents (paths s) !! p with
  | Some _ =>
      match shapeRef s !! p with
      | Some l =>
          match shapeObjects s !! l with
          | Some sh =>
              let sh' :=
                match key with
                | KeyObject o => assignAll o sh
                | KeyName k => <[k := value]> sh
                end in
              let objs := <[l := sh']> (shapeObjects s) in
              let s1 := mkStore (paths s) (shapeRef s) objs in
              match dirty stack p (Some true) (view s1) with
              | (Returned _, w2) => (Returned p, mkStore w2 (shapeRef s) objs)
              | (RangeError, w2) => (RangeError, mkStore w2 (shapeRef s) objs)
              | (Unbound, w2) => (Unbound, mkStore w2 (shapeRef s) objs)
              end
          | None => (Returned p, s)
          end
      | None => (Returned p, s)
      end
  | None => (Unbound, s)
  end.

(** The public operations on a store with references. Only [setShape]
    writes a shape object; the others read the shape of their receiver. *)
Definition stepIn (stack : nat) (o : Op) (s : Store) : Store :=
  match o with
  | OpSetShape p key value => snd (setShapeIn stack p key value s)
  | _ => mkStore (step stack o (view s)) (shapeRef s) (shapeObjects s)
  end.

Definition runIn (stack : nat) (ops : list Op) (s : Store) : Store :=
  fold_left (fun s o => stepIn stack o s) ops s.

(** No shape object is held by two paths. *)
Definition unshared (refs : gmap ident loc) : Prop :=
  forall p q l, refs !! p = Some l -> refs !! q = Some l -> p = q.

(** The shape of a path is as it was. *)
Definition sameShape (Q Q' : Path) : Prop := shape Q' = shape Q.

(** The shape written by [setShape]. *)
Definition writtenShape (key : ShapeKey) (value : Value)
    (sh : gmap string Value) : gmap string Value :=
  match key with
  | KeyObject o => assignAll o sh
  | KeyName k => <[k := value]> sh
  end.

(** * Properties *)

Lemma Rgtb_true (x y : R) : Rgtb x y = true <-> (x > y)%R.
Proof. unfold Rgtb. destruct (Rgt_dec x y); split; intros; try done. Qed.

Lemma Rgtb_false (x y : R) : Rgtb x y = false <-> (x <= y)%R.
Proof.
  unfold Rgtb. destruct (Rgt_dec x y); split; intros; try done; lra.
Qed.

(** ** The line scale *)

Lemma getLineScale_absent : getLineScale None = 1%R.
Proof. reflexivity. Qed.

Lemma getLineScale_near_one (t : Matrix.t) :
  (Rabs (Matrix.m0 t - 1) <= 1e-10 \/ Rabs (Matrix.m3 t - 1) <= 1e-10)%R ->
  getLineScale (Some t) = 1%R.
Proof.
  intros [H | H]; apply Rgtb_false in H; unfold getLineScale; rewrite H.
  - reflexivity.
  - rewrite andb_false_r. reflexivity.
Qed.

Lemma getLineScale_scaled (t : Matrix.t) :
  (Rabs (Matrix.m0 t - 1) > 1e-10)%R ->
  (Rabs (Matrix.m3 t - 1) > 1e-10)%R ->
  getLineScale (Some t)
  = sqrt (Rabs (Matrix.m0 t * Matrix.m3 t - Matrix.m2 t * Matrix.m1 t)).
Proof.
  intros Ha Hd. apply Rgtb_true in Ha, Hd.
  unfold getLineScale. rewrite Ha, Hd. reflexivity.
Qed.

Lemma getLineScale_identity : getLineScale (Some Matrix.identity) = 1%R.
Proof.
  apply getLineScale_near_one. left. simpl.
  replace (1 - 1)%R with 0%R by lra. rewrite Rabs_R0. lra.
Qed.

Lemma sqrt_4 : sqrt 4 = 2%R.
Proof. replace 4%R with (2 * 2)%R by lra. apply sqrt_square. lra. Qed.

Lemma getLineScale_double :
  getLineScale (Some (Matrix.mk 2 0 0 2 0 0)) = 2%R.
Proof.
  rewrite getLineScale_scaled; simpl.
  - replace (2 * 2 - 0 * 0)%R with 4%R by lra.
    rewrite Rabs_right by lra. apply sqrt_4.
  - replace (2 - 1)%R with 1%R by lra. rewrite Rabs_R1. lra.
  - replace (2 - 1)%R with 1%R by lra. rewrite Rabs_R1. lra.
Qed.

(** C2 (as amended). [getLineScale] is exactly one when the matrix is absent
    or when [a] or [d] (one of them is enough) is within [1e-10] of one; it
    is the square root of [|a d - b c|] when both [a] and [d] are further
    than [1e-10] from one. It is one on the identity and two on the matrix
    with [a = d = 2], [b = c = 0]. *)
Theorem getLineScale_cases :
  getLineScale None = 1%R
  /\ (forall t : Matrix.t,
        (Rabs (Matrix.m0 t - 1) <= 1e-10 \/ Rabs (Matrix.m3 t - 1) <= 1e-10)%R ->
        getLineScale (Some t) = 1%R)
  /\ (forall t : Matrix.t,
        (Rabs (Matrix.m0 t - 1) > 1e-10)%R ->
        (Rabs (Matrix.m3 t - 1) > 1e-10)%R ->
        getLineScale (Some t)
        = sqrt (Rabs (Matrix.m0 t * Matrix.m3 t - Matrix.m2 t * Matrix.m1 t)))
  /\ getLineScale (Some Matrix.identity) = 1%R
  /\ getLineScale (Some (Matrix.mk 2 0 0 2 0 0)) = 2%R.
Proof.
  split; [exact getLineScale_absent|].
  split; [exact getLineScale_near_one|].
  split; [exact getLineScale_scaled|].
  split; [exact getLineScale_identity | exact getLineScale_double].
Qed.

Lemma sqrt_2_not_1 : sqrt 2 <> 1%R.
Proof.
  intros H. assert (H2 : (sqrt 2 * sqrt 2 = 2)%R) by (apply sqrt_sqrt; lra).
  rewrite H in H2. lra.
Qed.

(** C2 (as stated) fails on the matrix with [a = 1], [d = 2], [b = c = 0]:
    [d] is not within [1e-10] of one, so the claim asks for the square root
    of two, and the code answers one. *)
Lemma getLineScale_one_axis_scaled :
  getLineScale (Some (Matrix.mk 1 0 0 2 0 0)) = 1%R
  /\ lineScaleAsSpecified (Some (Matrix.mk 1 0 0 2 0 0)) = sqrt 2
  /\ sqrt 2 <> 1%R.
Proof.
  assert (H1 : Rgtb (Rabs (1 - 1)) 1e-10 = false).
  { apply Rgtb_false. replace (1 - 1)%R with 0%R by lra. rewrite Rabs_R0. lra. }
  assert (H2 : Rgtb (Rabs (2 - 1)) 1e-10 = true).
  { apply Rgtb_true. replace (2 - 1)%R with 1%R by lra. rewrite Rabs_R1. lra. }
  split; [|split].
  - unfold getLineScale; simpl. rewrite H1. reflexivity.
  - unfold lineScaleAsSpecified; simpl. rewrite H1, H2. simpl.
    replace (1 * 2 - 0 * 0)%R with 2%R by lra.
    rewrite Rabs_right by lra. reflexivity.
  - exact sqrt_2_not_1.
Qed.

(** On binary64 floats the three matrices give the same answers: one on
    the identity, two on the doubling, and one (not the square root of two)
    when only [d] is scaled. *)
Lemma getLineScale64_instances :
  getLineScale64 (Some (Matrix64.mk 1 0 0 1 0 0)) = 1%float
  /\ getLineScale64 (Some (Matrix64.mk 2 0 0 2 0 0)) = 2%float
  /\ getLineScale64 (Some (Matrix64.mk 1 0 0 2 0 0)) = 1%float
  /\ PrimFloat.eqb (PrimFloat.sqrt 2) 1 = false.
Proof. repeat split; vm_compute; reflexivity. Qed.

(** ** The bounding rect *)

Lemma effectiveLineWidth_unscaled (lineWidth : R) (m : option Matrix.t) :
  getLineScale m = 1%R ->
  effectiveLineWidth lineWidth m = Rmax lineWidth 5.
Proof.
  intros H. unfold effectiveLineWidth. rewrite H.
  replace (lineWidth * 1)%R with lineWidth by lra. lra.
Qed.

Lemma getBoundingRect_cached P rect :
  _rect P = Some rect -> getBoundingRect P = (rect, P, []).
Proof.
  intros H. unfold getBoundingRect, bind, gets. simpl. rewrite H. reflexivity.
Qed.

Lemma getBoundingRect_fresh P :
  _rect P = None ->
  getBoundingRect P =
    (boundsOf P,
     set_rect (Some (boundsOf P)) (set_path (currentGeometry P) P),
     if __dirtyPath P then [ProxyBeginPath false; BuildPath] else []).
Proof.
  intros H. unfold getBoundingRect, boundsOf, currentGeometry, bind, gets. simpl.
  rewrite H.
  destruct P as [ty st sh px tr dp d rc zr ct bp]; simpl in *.
  destruct dp; simpl; destruct (pathHasStroke st); simpl; reflexivity.
Qed.

(** C5 (as amended). For a stroke-active path whose transform is absent or
    the identity and which has no bounding rect cached, [getBoundingRect]
    returns the raw bounds of the geometry with width and height increased
    by [max(lineWidth, 5)] and [x] and [y] decreased by half of that, and
    caches the result; with a rect cached it returns the cached rect as it
    is. *)
Theorem getBoundingRect_stroke_inflation P :
  pathHasStroke (style P) = true ->
  transform P = None \/ transform P = Some Matrix.identity ->
  (_rect P = None ->
   let raw := proxyBoundingRect (currentGeometry P) in
   let w := Rmax (Style.lineWidth (style P)) 5 in
   let rect := fst (fst (getBoundingRect P)) in
   BoundingRect.width rect = (BoundingRect.width raw + w)%R
   /\ BoundingRect.height rect = (BoundingRect.height raw + w)%R
   /\ BoundingRect.x rect = (BoundingRect.x raw - w / 2)%R
   /\ BoundingRect.y rect = (BoundingRect.y raw - w / 2)%R
   /\ _rect (snd (fst (getBoundingRect P))) = Some rect)
  /\ (forall cached, _rect P = Some cached ->
      getBoundingRect P = (cached, P, [])).
Proof.
  intros Hs Ht. split.
  - intros Hn. rewrite (getBoundingRect_fresh P Hn). simpl.
    unfold boundsOf. rewrite Hs.
    rewrite effectiveLineWidth_unscaled.
    + simpl. repeat split; reflexivity.
    + destruct Ht as [-> | ->];
        [apply getLineScale_absent | apply getLineScale_identity].
  - intros cached Hc. apply getBoundingRect_cached, Hc.
Qed.

(** ** The hit test *)

(** C6. With fill and stroke both active and the local point inside the
    bounding rect, [contain] answers the disjunction of the stroke predicate,
    at width [max(lineWidth * scale, 5) / scale], and the fill predicate,
    both on the recorded path data at the local point. The stroke predicate
    is called first and the fill predicate only when the stroke predicate
    said no; a point that only the stroke predicate accepts is contained. *)
Theorem contain_stroke_then_fill P x y rect P1 evs1 :
  pathHasStroke (style P) = true ->
  pathHasFill (style P) = true ->
  getBoundingRect P = (rect, P1, evs1) ->
  let localPos := transformCoordToLocal (transform P) x y in
  rectContain rect (fst localPos) (snd localPos) = true ->
  let scale := getLineScale (transform P) in
  let w := (Rmax (Style.lineWidth (style P) * scale) 5 / scale)%R in
  let inStroke := containStroke (data (path P1)) w (fst localPos) (snd localPos) in
  let inFill := containFill (data (path P1)) (fst localPos) (snd localPos) in
  contain x y P =
    (inStroke || inFill, P1,
     evs1 ++ ContainStroke w (fst localPos) (snd localPos)
          :: (if inStroke then [] else [ContainFill (fst localPos) (snd localPos)]))
  /\ (inStroke = true -> inFill = false -> fst (fst (contain x y P)) = true).
Proof.
  intros Hs Hf Hg localPos Hin scale w inStroke inFill.
  assert (Hst : style P1 = style P /\ transform P1 = transform P).
  { destruct (_rect P) eqn:Hr.
    - rewrite (getBoundingRect_cached P _ Hr) in Hg. by inversion Hg.
    - rewrite (getBoundingRect_fresh P Hr) in Hg. inversion Hg. by subst. }
  destruct Hst as [Hst Htr].
  assert (Hc : contain x y P =
    (inStroke || inFill, P1,
     evs1 ++ ContainStroke w (fst localPos) (snd localPos)
          :: (if inStroke then [] else [ContainFill (fst localPos) (snd localPos)]))).
  { unfold contain, bind, gets. simpl. rewrite Hg. simpl.
    fold localPos. rewrite Hin, Hst, Hs, Hf, Htr. simpl.
    unfold effectiveLineWidth. cbv zeta. fold scale. fold w. fold inStroke.
    destruct inStroke; simpl.
    - reflexivity.
    - fold inFill. reflexivity. }
  split; [exact Hc|].
  intros H1 H2. rewrite Hc. simpl. rewrite H1. reflexivity.
Qed.

(** ** Painting *)

Ltac in_list :=
  cbn; first [ left; reflexivity | right; in_list ].

Ltac not_in_list :=
  let H := fresh in
  cbn; intros H;
  repeat (destruct H as [H | H]; [discriminate H |]);
  exact H.

Ltac events_goal :=
  repeat match goal with
  | |- _ /\ _ => split
  | |- forall _, _ => intro
  | |- ~ _ => not_in_list
  | |- In _ _ => in_list
  | |- _ \/ _ => in_list
  | |- _ = _ => reflexivity
  end.

Lemma keeps_refl P : keeps P P.
Proof. repeat split. Qed.

Lemma keeps_trans P Q S : keeps P Q -> keeps Q S -> keeps P S.
Proof. unfold keeps. intuition congruence. Qed.

Lemma getBoundingRect_keeps P rect P' evs :
  getBoundingRect P = (rect, P', evs) ->
  keeps P P' /\ _rect P' = Some rect
  /\ (forall e, In e evs -> e = ProxyBeginPath false \/ e = BuildPath)
  /\ (__dirtyPath P = false -> evs = [] /\ path P' = path P).
Proof.
  intros H. destruct (_rect P) eqn:Hr.
  - rewrite (getBoundingRect_cached P _ Hr) in H. inversion H; subst.
    split; [apply keeps_refl|]. repeat split; try done.
  - rewrite (getBoundingRect_fresh P Hr) in H. inversion H; subst. clear H.
    split; [repeat split|]. split; [reflexivity|]. split.
    + intros e. destruct (__dirtyPath P); simpl; intuition.
    + intros Hd. unfold currentGeometry. rewrite Hd. done.
Qed.

Lemma updateIfGradient_keeps b paint P u P' evs :
  updateIfGradient b paint P = (u, P', evs) ->
  keeps P P'
  /\ (forall e, In e evs ->
        (exists g, e = UpdateCanvasGradient g /\ paint = PaintGradient g)
        \/ e = ProxyBeginPath false \/ e = BuildPath)
  /\ (forall g, b = true -> paint = PaintGradient g ->
        In (UpdateCanvasGradient g) evs).
Proof.
  unfold updateIfGradient, when, updateCanvasGradient, bind, emit, ret.
  destruct paint as [| c | g]; [| | destruct b]; simpl.
  1,2,4: intros H; inversion H; subst; split; [apply keeps_refl|];
         split; [intros e []|]; intros; discriminate.
  destruct (getBoundingRect P) as [[r P1] e1] eqn:Hg. intros H.
  inversion H; subst. clear H.
  apply getBoundingRect_keeps in Hg as (Hk & _ & He & _).
  split; [exact Hk|]. split.
  - intros e [<- | Hin]; [left; eauto|].
    rewrite app_nil_r in Hin. right. auto.
  - intros g' _ Hg'. inversion Hg'; subst. left. reflexivity.
Qed.

Lemma brush_clean c P :
  __dirtyPath P = false ->
  exists P' evs,
    brush c P = (tt, P', evs)
    /\ __dirtyPath P' = false
    /\ style P' = style P
    /\ (forall g, ~ In (UpdateCanvasGradient g) evs)
    /\ (if softwareDash c (style P)
        then In BuildPath evs /\ ~ In ProxyRebuildPath evs
        else In ProxyRebuildPath evs /\ ~ In BuildPath evs).
Proof.
  intros Hd.
  destruct P as [ty st sh px tr dp d rc zr ct bp]; simpl in *; subst dp.
  unfold brush, softwareDash.
  unfold bind, gets, emit, when, modify, ret, updateIfGradient,
    proxyBeginPath, callBuildPath, getBoundingRect.
  cbn -[pathHasStroke pathHasFill textTruthy].
  destruct (pathHasStroke st) eqn:Hs, (pathHasFill st), (Style.lineDash st), c,
    (textTruthy (Style.text st)), rc;
    cbn -[pathHasStroke]; rewrite ?Hs; cbn;
    do 2 eexists; (split; [reflexivity|]); cbn;
    events_goal.
Qed.

Lemma gradient_events_harmless paint es e :
  (forall e : Event,
     In e es ->
     (exists g, e = UpdateCanvasGradient g /\ paint = PaintGradient g)
     \/ e = ProxyBeginPath false \/ e = BuildPath) ->
  In e es -> e <> ProxyBeginPath true /\ e <> ProxyRebuildPath.
Proof.
  intros H Hin. destruct (H e Hin) as [(g & -> & _) | [-> | ->]]; split; discriminate.
Qed.

Lemma brush_dirty c P :
  __dirtyPath P = true ->
  exists P' pre post,
    brush c P = (tt, P', pre ++ ProxyBeginPath true :: post)
    /\ __dirtyPath P' = false
    /\ style P' = style P
    /\ ~ In (ProxyBeginPath true) pre
    /\ In BuildPath post
    /\ ~ In ProxyRebuildPath (pre ++ post)
    /\ (forall g,
          pathHasFill (style P) = true /\ Style.fill (style P) = PaintGradient g
          \/ pathHasStroke (style P) = true /\ Style.stroke (style P) = PaintGradient g ->
          In (UpdateCanvasGradient g) pre).
Proof.
  intros Hd.
  unfold brush, bind, gets, emit, when, modify, ret. simpl. rewrite Hd.
  destruct (updateIfGradient (pathHasFill (style P)) (Style.fill (style P)) P)
    as [[u1 P1] e1] eqn:E1.
  destruct (updateIfGradient (pathHasStroke (style P)) (Style.stroke (style P)) P1)
    as [[u2 P2] e2] eqn:E2.
  apply updateIfGradient_keeps in E1 as (K1 & In1 & G1).
  apply updateIfGradient_keeps in E2 as (K2 & In2 & G2).
  pose proof (keeps_trans _ _ _ K1 K2) as K.
  destruct K as (Kty & Kst & Ksh & Ktr & Kdp & Kd & Kzr & Kct & Kbp).
  rewrite Kdp, Hd. simpl.
  assert (Hpre : forall e, In e (CtxSave :: (e1 ++ e2) ++ [StyleBind; SetTransform]) ->
                 e <> ProxyBeginPath true /\ e <> ProxyRebuildPath).
  { intros e [<- | Hin]; [split; discriminate|].
    apply in_app_or in Hin as [Hin | Hin].
    - apply in_app_or in Hin as [Hin | Hin].
      + exact (gradient_events_harmless _ _ _ In1 Hin).
      + exact (gradient_events_harmless _ _ _ In2 Hin).
    - destruct Hin as [<- | [<- | []]]; split; discriminate. }
  assert (Hgrad : forall g,
          pathHasFill (style P) = true /\ Style.fill (style P) = PaintGradient g
          \/ pathHasStroke (style P) = true /\ Style.stroke (style P) = PaintGradient g ->
          In (UpdateCanvasGradient g) (CtxSave :: (e1 ++ e2) ++ [StyleBind; SetTransform])).
  { intros g Hg. right. apply in_or_app. left. apply in_or_app.
    destruct Hg as [[? ?] | [? ?]]; [left | right]; auto. }
  destruct (Style.lineDash (style P)) as [ld|], c,
    (pathHasFill (style P)), (pathHasStroke (style P)),
    (textTruthy (Style.text (style P)));
    cbn -[getBoundingRect];
    try match goal with
    | |- context [getBoundingRect ?X] =>
        let Eg := fresh "Eg" in
        destruct (getBoundingRect X) as [[r7 P7] e7] eqn:Eg;
        apply getBoundingRect_keeps in Eg as (K7 & _ & _ & Hc);
        destruct (Hc eq_refl) as [-> _];
        destruct K7 as (_ & K7st & _ & _ & K7dp & _)
    end;
    eexists _, (CtxSave :: (e1 ++ e2) ++ [StyleBind; SetTransform]), _;
    (split; [cbn; rewrite <- !app_assoc; cbn; reflexivity |]);
    (split; [first [exact K7dp | reflexivity] |]);
    (split; [first [rewrite K7st; cbn; exact Kst | cbn; exact Kst] |]);
    (split; [intros Hin; apply Hpre in Hin as [Hin _]; congruence |]);
    (split; [in_list |]);
    (split; [| exact Hgrad]);
    (intros Hin; apply in_app_or in Hin as [Hin | Hin];
     [apply Hpre in Hin as [_ Hin]; congruence | revert Hin; not_in_list]).
Qed.

(** ** Dirty marking *)

Lemma dirty_eq stack p arg w :
  dirty stack p arg w =
  match ents w !! p with
  | Some P =>
      let w' := commit p (markDirty arg P) (dirtyEvents arg P) w in
      match __clipTarget P with
      | Some e =>
          match stack with
          | S n => dirty n e None w'
          | O => (RangeError, w')
          end
      | None => (Returned tt, w')
      end
  | None => (Unbound, w)
  end.
Proof.
  destruct stack; simpl; destruct (ents w !! p) as [P|]; try reflexivity;
    destruct P as [ty st sh px tr dp d rc zr ct bp];
    destruct arg as [[]|]; reflexivity.
Qed.

Lemma markDirty_clipTarget arg P : __clipTarget (markDirty arg P) = __clipTarget P.
Proof. destruct arg as [[]|]; reflexivity. Qed.

Lemma markDirty_style arg P : style (markDirty arg P) = style P.
Proof. destruct arg as [[]|]; reflexivity. Qed.

Lemma markDirty_dirty arg P : __dirty (markDirty arg P) = true.
Proof. destruct arg as [[]|]; reflexivity. Qed.

Lemma markDirty_dirtied arg P : dirtied P (markDirty arg P).
Proof. destruct arg as [[]|]; unfold dirtied; auto. Qed.

Lemma dirtied_refl P : dirtied P P.
Proof. left. reflexivity. Qed.

Lemma dirtied_trans P Q S : dirtied P Q -> dirtied Q S -> dirtied P S.
Proof.
  unfold dirtied. destruct P as [ty st sh px tr dp d rc zr ct bp].
  intros [-> | [-> | ->]] [-> | [-> | ->]]; cbn; auto.
Qed.

Lemma dirtied_clipTarget P Q : dirtied P Q -> __clipTarget Q = __clipTarget P.
Proof. intros [-> | [-> | ->]]; reflexivity. Qed.

Lemma dirtied_style P Q : dirtied P Q -> style Q = style P.
Proof. intros [-> | [-> | ->]]; reflexivity. Qed.

Lemma dirtied_dirty P Q : dirtied P Q -> __dirty P = true -> __dirty Q = true.
Proof. intros [-> | [-> | ->]]; auto. Qed.

Lemma dirtied_invalid P Q :
  dirtied P Q -> _rect P = None /\ __dirtyPath P = true ->
  _rect Q = None /\ __dirtyPath Q = true.
Proof. intros [-> | [-> | ->]]; auto. Qed.

Lemma dirtied_dirtyPath P Q :
  dirtied P Q -> __dirtyPath P = true -> __dirtyPath Q = true.
Proof. intros [-> | [-> | ->]]; auto. Qed.

(** A call of [dirty] keeps the objects of the store and, on each, only
    marks; it only adds to the log. *)
Lemma dirty_effect stack : forall p arg w,
  (forall q, option_Forall2 dirtied (ents w !! q)
               (ents (snd (dirty stack p arg w)) !! q))
  /\ exists evs, log (snd (dirty stack p arg w)) = log w ++ evs.
Proof.
  induction stack as [|n IH]; intros p arg w; rewrite dirty_eq;
    destruct (ents w !! p) as [P|] eqn:Hp; simpl.
  2,4: split; [intros q; destruct (ents w !! q); constructor; apply dirtied_refl
              | exists []; by rewrite app_nil_r].
  - assert (Hc : forall q, option_Forall2 dirtied (ents w !! q)
                   (<[p:=markDirty arg P]> (ents w) !! q)).
    { intros q. destruct (decide (p = q)) as [<-|Hne].
      - rewrite lookup_insert_eq, Hp. constructor. apply markDirty_dirtied.
      - rewrite lookup_insert_ne by done.
        destruct (ents w !! q); constructor; apply dirtied_refl. }
    destruct (__clipTarget P); simpl; (split; [exact Hc | eauto]).
  - assert (Hc : forall q, option_Forall2 dirtied (ents w !! q)
                   (<[p:=markDirty arg P]> (ents w) !! q)).
    { intros q. destruct (decide (p = q)) as [<-|Hne].
      - rewrite lookup_insert_eq, Hp. constructor. apply markDirty_dirtied.
      - rewrite lookup_insert_ne by done.
        destruct (ents w !! q); constructor; apply dirtied_refl. }
    destruct (__clipTarget P) as [e|]; simpl; [| split; [exact Hc | eauto]].
    destruct (IH e None (commit p (markDirty arg P) (dirtyEvents arg P) w))
      as [Hq [evs Hl]].
    split.
    + intros q. specialize (Hq q). specialize (Hc q). simpl in Hq.
      destruct Hc as [Q Q1 H1|]; inversion Hq; subst; constructor.
      eapply dirtied_trans; eauto.
    + rewrite Hl. simpl. rewrite <- app_assoc. eauto.
Qed.

(** The body of [dirty] runs on the receiver, whatever happens next. *)
Lemma dirty_self stack p arg w P :
  ents w !! p = Some P ->
  exists P' evs,
    ents (snd (dirty stack p arg w)) !! p = Some P'
    /\ dirtied (markDirty arg P) P'
    /\ log (snd (dirty stack p arg w)) = log w ++ (p, DirtyCall arg) :: evs.
Proof.
  intros Hp. rewrite dirty_eq, Hp. simpl.
  set (w1 := commit p (markDirty arg P) (dirtyEvents arg P) w).
  assert (H1 : ents w1 !! p = Some (markDirty arg P))
    by apply lookup_insert_eq.
  assert (Hl : log w1 = log w ++ (p, DirtyCall arg)
                 :: map (pair p) (if __zr P then [ZrRefresh] else [])) by reflexivity.
  destruct (__clipTarget P) as [e|]; [destruct stack as [|n] |]; simpl.
  - eexists _, _. split; [exact H1|]. split; [apply dirtied_refl | exact Hl].
  - destruct (dirty_effect n e None w1) as [Hq [evs He]].
    specialize (Hq p). rewrite H1 in Hq. inversion Hq as [? P' Hd |]; subst.
    eexists P', _. split; [done|]. split; [done|].
    rewrite He, Hl, <- app_assoc. reflexivity.
  - eexists _, _. split; [exact H1|]. split; [apply dirtied_refl | exact Hl].
Qed.

Lemma clipChain_insert p P P' (m : gmap ident Path) :
  m !! p = Some P -> __clipTarget P' = __clipTarget P ->
  forall stack q, clipChain stack q (<[p:=P']> m) = clipChain stack q m.
Proof.
  intros Hp Hc. induction stack as [|n IH]; intros q; simpl;
    (destruct (decide (p = q)) as [<-|Hne];
     [rewrite lookup_insert_eq, Hp, Hc | rewrite lookup_insert_ne by done]).
  - by destruct (__clipTarget P).
  - reflexivity.
  - destruct (__clipTarget P); by rewrite ?IH.
  - destruct (m !! q) as [Q|]; [|done]. destruct (__clipTarget Q); by rewrite ?IH.
Qed.

Lemma chainEnds_insert p P P' (m : gmap ident Path) :
  m !! p = Some P -> __clipTarget P' = __clipTarget P ->
  forall stack q, chainEnds stack q (<[p:=P']> m) = chainEnds stack q m.
Proof.
  intros Hp Hc. induction stack as [|n IH]; intros q; simpl;
    (destruct (decide (p = q)) as [<-|Hne];
     [rewrite lookup_insert_eq, Hp, Hc | rewrite lookup_insert_ne by done]).
  - reflexivity.
  - reflexivity.
  - destruct (__clipTarget P); by rewrite ?IH.
  - destruct (m !! q) as [Q|]; [|done]. destruct (__clipTarget Q); by rewrite ?IH.
Qed.

(** A call of [dirty] touches only the objects on the clip chain. *)
Lemma dirty_frame stack : forall p arg w q,
  ~ In q (clipChain stack p (ents w)) ->
  ents (snd (dirty stack p arg w)) !! q = ents w !! q.
Proof.
  induction stack as [|n IH]; intros p arg w q; rewrite dirty_eq; simpl;
    destruct (ents w !! p) as [P|] eqn:Hp; simpl; try done.
  - intros Hq. assert (p <> q) by (intros ->; apply Hq; by left).
    destruct (__clipTarget P); simpl; by rewrite lookup_insert_ne.
  - intros Hq. assert (p <> q) by (intros ->; apply Hq; by left).
    destruct (__clipTarget P) as [e|]; simpl; [|by rewrite lookup_insert_ne].
    rewrite IH.
    + simpl. by rewrite lookup_insert_ne.
    + simpl. rewrite (clipChain_insert p P) by (done || apply markDirty_clipTarget).
      intros Hin. apply Hq. by right.
Qed.

(** With a clip chain that ends within the room of the stack, [dirty]
    returns. *)
Lemma dirty_returns stack : forall p arg w,
  chainEnds stack p (ents w) = true ->
  fst (dirty stack p arg w) = Returned tt.
Proof.
  induction stack as [|n IH]; intros p arg w; rewrite dirty_eq; simpl;
    destruct (ents w !! p) as [P|] eqn:Hp; simpl; try done;
    destruct (__clipTarget P) as [e|]; simpl; try done.
  intros He. apply IH. simpl.
  by rewrite (chainEnds_insert p P) by (done || apply markDirty_clipTarget).
Qed.

(** C8. When the [__clipTarget] of a path is the object [e], a call of
    [dirty] on the path, with any argument or none, calls [dirty] on [e]
    and leaves [e] with [__dirty] set. (The stack has room for the nested
    call; when the clip chain ends within the room of the stack the call
    returns.) *)
Theorem dirty_marks_clip_target n w p P e E arg :
  ents w !! p = Some P ->
  __clipTarget P = Some e ->
  ents w !! e = Some E ->
  (exists E' evs,
     ents (snd (dirty (S n) p arg w)) !! e = Some E'
     /\ __dirty E' = true
     /\ log (snd (dirty (S n) p arg w)) = log w ++ evs
     /\ In (p, DirtyCall arg) evs
     /\ In (e, DirtyCall None) evs)
  /\ (chainEnds (S n) p (ents w) = true ->
      fst (dirty (S n) p arg w) = Returned tt).
Proof.
  intros Hp Hc He. split; [| apply dirty_returns].
  rewrite dirty_eq, Hp. simpl. rewrite Hc.
  set (w1 := commit p (markDirty arg P) (dirtyEvents arg P) w).
  assert (He1 : exists E1, ents w1 !! e = Some E1).
  { subst w1. simpl. destruct (decide (p = e)) as [<-|Hne].
    - rewrite lookup_insert_eq. eauto.
    - rewrite lookup_insert_ne by done. eauto. }
  destruct He1 as [E1 He1].
  destruct (dirty_self n e None w1 E1 He1) as (E' & evs & HE' & Hd & Hl).
  exists E', (map (pair p) (dirtyEvents arg P) ++ (e, DirtyCall None) :: evs).
  split; [exact HE'|]. split.
  - eapply dirtied_dirty; [exact Hd | apply markDirty_dirty].
  - split; [rewrite Hl; simpl; by rewrite <- app_assoc |].
    split; [by left | right]. apply in_or_app. right. by left.
Qed.

(** C10. When the [__clipTarget] of a path is the object [e], the call
    [dirty(false)] on the path still calls [dirty] on [e] with no argument:
    [e] ends with [__dirtyPath] set and no cached rect. The path itself keeps
    its [__dirtyPath] and its cached rect, unless the clip chain from [e]
    leads back to it. *)
Theorem dirty_false_invalidates_clip_target n w p P e E :
  ents w !! p = Some P ->
  __clipTarget P = Some e ->
  ents w !! e = Some E ->
  (exists E' evs,
     ents (snd (dirty (S n) p (Some false) w)) !! e = Some E'
     /\ __dirtyPath E' = true
     /\ _rect E' = None
     /\ log (snd (dirty (S n) p (Some false) w))
        = log w ++ (p, DirtyCall (Some false)) :: evs
     /\ In (e, DirtyCall None) evs)
  /\ (~ In p (clipChain n e (ents w)) ->
      exists P',
        ents (snd (dirty (S n) p (Some false) w)) !! p = Some P'
        /\ __dirtyPath P' = __dirtyPath P
        /\ _rect P' = _rect P
        /\ __dirty P' = true).
Proof.
  intros Hp Hc He.
  rewrite dirty_eq, Hp. simpl. rewrite Hc.
  set (w1 := commit p (markDirty (Some false) P) (dirtyEvents (Some false) P) w).
  split.
  - assert (He1 : exists E1, ents w1 !! e = Some E1).
    { subst w1. simpl. destruct (decide (p = e)) as [<-|Hne].
      - rewrite lookup_insert_eq. eauto.
      - rewrite lookup_insert_ne by done. eauto. }
    destruct He1 as [E1 He1].
    destruct (dirty_self n e None w1 E1 He1) as (E' & evs & HE' & Hd & Hl).
    assert (Hinv : _rect E' = None /\ __dirtyPath E' = true)
      by (eapply dirtied_invalid; [exact Hd | done]).
    exists E',
      (map (pair p) (if __zr P then [ZrRefresh] else [])
       ++ (e, DirtyCall None) :: evs).
    split; [exact HE'|]. split; [apply Hinv|]. split; [apply Hinv|]. split.
    + rewrite Hl. simpl. rewrite <- app_assoc. reflexivity.
    + apply in_or_app. right. by left.
  - intros Hnot. exists (markDirty (Some false) P).
    rewrite dirty_frame.
    + split; [apply lookup_insert_eq | done].
    + simpl. by rewrite (clipChain_insert p P).
Qed.

(** ** The shape setter *)

(** C9. On a path with no [shape], [setShape] with any arguments leaves the
    whole store as it is (shape, style, both dirty flags and the cached rect
    of every object), logs no call (no [dirty], no refresh), and returns the
    path itself. *)
Theorem setShape_without_shape stack w p P key value :
  ents w !! p = Some P ->
  shape P = None ->
  setShape stack p key value w = (Returned p, w).
Proof.
  intros Hp Hs. unfold setShape. rewrite Hp, Hs. reflexivity.
Qed.

(** ** Gradients and the rebuild test of [brush] *)

(** C3 (as amended). When an active fill or stroke paint is a gradient,
    [brush] on a dirty path calls the gradient's [updateCanvasGradient]
    before it begins the rebuild of the geometry ([path.beginPath(ctx)],
    then [buildPath]); [brush] on a path that is not dirty calls no
    [updateCanvasGradient] at all. *)
Theorem brush_gradient_only_when_dirty c P g :
  pathHasFill (style P) = true /\ Style.fill (style P) = PaintGradient g
  \/ pathHasStroke (style P) = true /\ Style.stroke (style P) = PaintGradient g ->
  if __dirtyPath P
  then exists pre post,
         snd (brush c P) = pre ++ ProxyBeginPath true :: post
         /\ In (UpdateCanvasGradient g) pre
         /\ ~ In (ProxyBeginPath true) pre
         /\ In BuildPath post
  else forall g', ~ In (UpdateCanvasGradient g') (snd (brush c P)).
Proof.
  intros Hg. destruct (__dirtyPath P) eqn:Hd.
  - destruct (brush_dirty c P Hd) as (P' & pre & post & Hb & _ & _ & Hn & Hbp & _ & Hgr).
    exists pre, post. rewrite Hb. simpl. auto.
  - destruct (brush_clean c P Hd) as (P' & evs & Hb & _ & _ & Hn & _).
    rewrite Hb. exact Hn.
Qed.

(** ** Operations on the store *)

Lemma invoke_some {A} p (m : Meth A) w P :
  ents w !! p = Some P ->
  invoke p m w = (Returned (fst (fst (m P))), commit p (snd (fst (m P))) (snd (m P)) w).
Proof.
  intros Hp. unfold invoke. rewrite Hp. by destruct (m P) as [[a P'] evs].
Qed.

Lemma invoke_other {A} p (m : Meth A) w q :
  p <> q -> ents (snd (invoke p m w)) !! q = ents w !! q.
Proof.
  intros Hne. unfold invoke. destruct (ents w !! p) as [P|]; [|done].
  destruct (m P) as [[a P'] evs]. simpl. by rewrite lookup_insert_ne.
Qed.

Lemma dirty_invalidated stack p arg w q :
  invalidated w q -> invalidated (snd (dirty stack p arg w)) q.
Proof.
  intros Hi Q' HQ'. destruct (dirty_effect stack p arg w) as [Hq _].
  specialize (Hq q). rewrite HQ' in Hq. inversion Hq as [Q ? Hd HQ |]; subst.
  eapply dirtied_invalid; [exact Hd | apply Hi; done].
Qed.

Lemma dirty_invalidates stack p arg w :
  arg <> Some false -> invalidated (snd (dirty stack p arg w)) p.
Proof.
  intros Ha P' HP'. destruct (ents w !! p) as [P|] eqn:Hp.
  - destruct (dirty_self stack p arg w P Hp) as (P2 & evs & H2 & Hd & _).
    rewrite H2 in HP'. inversion HP'; subst.
    eapply dirtied_invalid; [exact Hd|].
    destruct arg as [[]|]; done.
  - rewrite dirty_eq, Hp in HP'. simpl in HP'. congruence.
Qed.

(** What [setShape] does to an object of the store. *)
Lemma setShape_effect stack p key value w q :
  option_Forall2
    (fun Q Q' => exists sh, dirtied (set_shape sh Q) Q')
    (ents w !! q) (ents (snd (setShape stack p key value w)) !! q).
Proof.
  assert (Hid : option_Forall2
    (fun Q Q' : Path => exists sh, dirtied (set_shape sh Q) Q')
    (ents w !! q) (ents w !! q)).
  { destruct (ents w !! q) as [Q|]; constructor. exists (shape Q).
    destruct Q. apply dirtied_refl. }
  unfold setShape. destruct (ents w !! p) as [P|] eqn:Hp; [|exact Hid].
  destruct (shape P) as [sh|] eqn:Hs; [|exact Hid].
  match goal with |- context [dirty stack p (Some true) ?w0] =>
    set (w1 := w0) end.
  destruct (dirty_effect stack p (Some true) w1) as [Hq _]. specialize (Hq q).
  assert (Hw : ents (snd (match dirty stack p (Some true) w1 with
                 | (Returned _, w2) => (Returned p, w2)
                 | (RangeError, w2) => (RangeError, w2)
                 | (Unbound, w2) => (Unbound, w2)
                 end)) = ents (snd (dirty stack p (Some true) w1))).
  { by destruct (dirty stack p (Some true) w1) as [[] ?]. }
  rewrite Hw. clear Hw.
  subst w1. simpl in Hq. destruct (decide (p = q)) as [<-|Hne].
  - rewrite lookup_insert_eq in Hq. rewrite Hp.
    inversion Hq; subst. constructor. eauto.
  - rewrite lookup_insert_ne in Hq by done.
    destruct (ents w !! q) as [Q|]; inversion Hq; subst; constructor.
    exists (shape Q). by destruct Q.
Qed.

Lemma step_invalidated stack o w q :
  readsGeometry q o = false ->
  invalidated w q -> invalidated (step stack o w) q.
Proof.
  intros Hc Hi. destruct o as [p c | p | p x y | p key value | p arg]; simpl in *.
  1,2,3: apply bool_decide_eq_false in Hc; intros Q HQ;
         rewrite invoke_other in HQ by done; by apply Hi.
  - intros Q' HQ'. pose proof (setShape_effect stack p key value w q) as He.
    rewrite HQ' in He. inversion He as [Q ? [sh Hd] HQ |]; subst.
    eapply dirtied_invalid; [exact Hd|]. simpl. apply Hi. done.
  - by apply dirty_invalidated.
Qed.

Lemma run_invalidated stack ops : forall w q,
  Forall (fun o => readsGeometry q o = false) ops ->
  invalidated w q -> invalidated (run stack ops w) q.
Proof.
  induction ops as [|o ops IH]; intros w q Hf Hi; [exact Hi|].
  inversion Hf; subst. simpl. apply IH; [done|]. by apply step_invalidated.
Qed.

(** C1 (as amended). Once the geometry of a path is invalidated (by
    [dirty()] or [dirty(true)]; a new path starts in this state), its cached
    rect stays null and its [__dirtyPath] stays set along every sequence of
    public operations that runs no [getBoundingRect], [contain] or [brush] on
    that path: the rect is non-null only after a computation since the last
    invalidation. ([__dirtyPath] may still be set then: [getBoundingRect]
    does not clear it.) *)
Theorem rect_null_until_computed stack p ops :
  Forall (fun o => readsGeometry p o = false) ops ->
  (forall w, invalidated w p -> invalidated (run stack ops w) p)
  /\ (forall w arg, arg <> Some false ->
        invalidated (run stack ops (snd (dirty stack p arg w))) p)
  /\ (forall w opts,
        invalidated (run stack ops (commit p (newPath opts) [] w)) p).
Proof.
  intros Hf. split; [|split].
  - intros w. by apply run_invalidated.
  - intros w arg Ha. apply run_invalidated; [done|]. by apply dirty_invalidates.
  - intros w opts. apply run_invalidated; [done|].
    intros P HP. simpl in HP. rewrite lookup_insert_eq in HP.
    by inversion HP.
Qed.

(** ** Two paints after a geometry-dirty mark *)

Lemma setShapes_style stack p muts : forall w P,
  ents w !! p = Some P ->
  exists P',
    ents (run stack (map (fun m => OpSetShape p (fst m) (snd m)) muts) w) !! p = Some P'
    /\ style P' = style P.
Proof.
  induction muts as [|[key value] muts IH]; intros w P Hp; simpl; [eauto|].
  pose proof (setShape_effect stack p key value w p) as He.
  rewrite Hp in He.
  destruct (ents (snd (setShape stack p key value w)) !! p) as [P1|] eqn:H1;
    inversion He as [? ? Hex|]; subst. destruct Hex as [sh Hd].
  destruct (IH _ _ H1) as (P' & HP' & Hst).
  exists P'. split; [exact HP'|]. rewrite Hst.
  by rewrite (dirtied_style _ _ Hd).
Qed.

(** C4 (as amended). After any sequence of shape mutations and a
    geometry-dirty mark, the first [brush] rebuilds the geometry (it calls
    [buildPath], replays nothing, and clears [__dirtyPath]). The second
    [brush] replays the recording without calling [buildPath], unless the
    dashes have to be drawn in software (a dash pattern is set, the context
    has no [setLineDash], and the stroke is active): then it rebuilds again
    and replays nothing. *)
Theorem brush_twice_after_dirty stack w p P muts c1 c2 :
  ents w !! p = Some P ->
  let w1 := run stack (map (fun m => OpSetShape p (fst m) (snd m)) muts) w in
  let w2 := snd (dirty stack p (Some true) w1) in
  let w3 := snd (invoke p (brush c1) w2) in
  let w4 := snd (invoke p (brush c2) w3) in
  exists evs1 evs2 P3,
    log w3 = log w2 ++ map (pair p) evs1
    /\ In BuildPath evs1 /\ ~ In ProxyRebuildPath evs1
    /\ ents w3 !! p = Some P3 /\ __dirtyPath P3 = false
    /\ log w4 = log w3 ++ map (pair p) evs2
    /\ (if softwareDash c2 (style P)
        then In BuildPath evs2 /\ ~ In ProxyRebuildPath evs2
        else In ProxyRebuildPath evs2 /\ ~ In BuildPath evs2).
Proof.
  intros Hp w1 w2 w3 w4.
  destruct (setShapes_style stack p muts w P Hp) as (P1 & HP1 & Hst1).
  fold w1 in HP1.
  destruct (dirty_self stack p (Some true) w1 P1 HP1) as (P2 & evs & HP2 & Hd2 & _).
  fold w2 in HP2.
  assert (Hdirty : __dirtyPath P2 = true)
    by (eapply dirtied_dirtyPath; [exact Hd2 | done]).
  assert (Hst2 : style P2 = style P).
  { rewrite (dirtied_style _ _ Hd2). simpl. exact Hst1. }
  destruct (brush_dirty c1 P2 Hdirty)
    as (P3 & pre & post & Hb1 & Hd3 & Hst3 & _ & Hbp & Hnr & _).
  assert (H3 : w3 = commit p P3 (pre ++ ProxyBeginPath true :: post) w2).
  { subst w3. rewrite (invoke_some _ _ _ _ HP2), Hb1. reflexivity. }
  assert (HP3 : ents w3 !! p = Some P3) by (rewrite H3; apply lookup_insert_eq).
  destruct (brush_clean c2 P3 Hd3) as (P4 & evs2 & Hb2 & _ & _ & _ & Hrep).
  assert (H4 : w4 = commit p P4 evs2 w3).
  { subst w4. rewrite (invoke_some _ _ _ _ HP3), Hb2. reflexivity. }
  exists (pre ++ ProxyBeginPath true :: post), evs2, P3.
  split; [by rewrite H3|]. split.
  { apply in_or_app. right. by right. }
  split.
  { intros Hin. apply Hnr. apply in_app_or in Hin as [Hin | [Hin | Hin]].
    - apply in_or_app. by left.
    - discriminate.
    - apply in_or_app. by right. }
  split; [exact HP3|]. split; [exact Hd3|]. split; [by rewrite H4|].
  rewrite <- Hst2, <- Hst3. exact Hrep.
Qed.

(** ** Extension *)

Lemma extendShape_lookup (defaultShape thisShape : gmap string Value) name :
  extendShape defaultShape thisShape !! name =
  match thisShape !! name with
  | Some v => Some v
  | None => defaultShape !! name
  end.
Proof.
  unfold extendShape. revert name.
  apply (map_fold_weak_ind
    (fun (r : gmap string Value) (m : gmap string Value) =>
       forall name, r !! name =
         match thisShape !! name with Some v => Some v | None => m !! name end)).
  - intros name. rewrite lookup_empty. by destruct (thisShape !! name).
  - intros i x m r Hi IH name. destruct (decide (i = name)) as [<-|Hne].
    + rewrite lookup_insert_eq. specialize (IH i). rewrite Hi in IH.
      destruct (thisShape !! i) as [v|] eqn:Ht.
      * rewrite bool_decide_eq_true_2 by (rewrite IH; eauto). exact IH.
      * rewrite bool_decide_eq_false_2 by (rewrite IH; by intros [? ?]).
        apply lookup_insert_eq.
    + rewrite (lookup_insert_ne m) by done. rewrite <- IH.
      case_bool_decide; [done | by rewrite lookup_insert_ne].
Qed.

(** C7 (as amended). When the definition given to [extend] has a default
    shape and its [init] hook, if it has one, leaves the shape alone, a new
    object of the kind has each shape key at the value of the construction
    options when they supply the key, and at the default value otherwise. *)
Theorem extend_keeps_supplied_shape defaults opts defaultShape :
  def_shape defaults = Some defaultShape ->
  (forall init P, def_init defaults = Some init -> shape (init opts P) = shape P) ->
  exists sh,
    shape (extend defaults opts) = Some sh
    /\ forall name,
         sh !! name =
         match opts_shape opts ≫= (fun supplied => supplied !! name) with
         | Some v => Some v
         | None => defaultShape !! name
         end.
Proof.
  intros Hs Hinit. unfold extend. rewrite Hs.
  exists (extendShape defaultShape (default ∅ (opts_shape opts))). split.
  - destruct (def_init defaults) as [init|] eqn:Hi.
    + rewrite (Hinit init _ eq_refl). destruct (def_style defaults); reflexivity.
    + destruct (def_style defaults); reflexivity.
  - intros name. rewrite extendShape_lookup.
    destruct (def_style defaults); simpl;
      destruct (opts_shape opts) as [supplied|]; simpl; try reflexivity.
Qed.


(** * Further properties *)

(** ** The bounding rect, again *)

(** X5. [getBoundingRect] is memoized: called again on the state it left,
    it returns the same rect, changes nothing and calls nothing. *)
Theorem getBoundingRect_memoized P :
  getBoundingRect (snd (fst (getBoundingRect P)))
  = (fst (fst (getBoundingRect P)), snd (fst (getBoundingRect P)), []).
Proof.
  destruct (getBoundingRect P) as [[rect P1] evs] eqn:Hg. simpl.
  apply getBoundingRect_keeps in Hg as (_ & Hr & _).
  by apply getBoundingRect_cached.
Qed.

(** X6. [getBoundingRect] writes only the recorded path and the cached rect:
    it never clears [__dirtyPath] and never touches style, shape, transform
    or [__dirty]. It caches the rect it returns. It calls nothing when a rect
    is cached or the path is clean (the recorded path is then left as it is);
    on a dirty path with nothing cached it calls [path.beginPath()] and
    [buildPath] once, and the recording holds the commands of [buildPath] for
    the current shape. *)
Theorem getBoundingRect_only_caches P :
  let rect := fst (fst (getBoundingRect P)) in
  let P1 := snd (fst (getBoundingRect P)) in
  let evs := snd (getBoundingRect P) in
  keeps P P1
  /\ _rect P1 = Some rect
  /\ (is_Some (_rect P) \/ __dirtyPath P = false -> evs = [] /\ path P1 = path P)
  /\ (_rect P = None -> __dirtyPath P = true ->
      evs = [ProxyBeginPath false; BuildPath]
      /\ data (path P1) = buildPath P (shape P)).
Proof.
  intros rect P1 evs. subst rect P1 evs.
  destruct (_rect P) as [cached|] eqn:Hr.
  - rewrite (getBoundingRect_cached P cached Hr). simpl.
    split; [apply keeps_refl|]. split; [done|]. split; [done|]. done.
  - rewrite (getBoundingRect_fresh P Hr). simpl.
    split; [repeat split|]. split; [done|]. split.
    + intros [[? ?] | Hd]; [done|]. unfold currentGeometry. by rewrite Hd.
    + intros _ Hd. unfold currentGeometry. by rewrite Hd.
Qed.

(** ** The hit test, again *)

Lemma contain_eq P x y rect P1 evs1 :
  getBoundingRect P = (rect, P1, evs1) ->
  let localPos := transformCoordToLocal (transform P) x y in
  let lx := fst localPos in
  let ly := snd localPos in
  let w := effectiveLineWidth (Style.lineWidth (style P)) (transform P) in
  let inStroke := containStroke (data (path P1)) w lx ly in
  let inFill := containFill (data (path P1)) lx ly in
  let fillEvents := if pathHasFill (style P) then [ContainFill lx ly] else [] in
  contain x y P =
    (rectContain rect lx ly
     && ((pathHasStroke (style P) && inStroke) || (pathHasFill (style P) && inFill)),
     P1,
     evs1 ++
     if rectContain rect lx ly then
       if pathHasStroke (style P)
       then ContainStroke w lx ly :: (if inStroke then [] else fillEvents)
       else fillEvents
     else []).
Proof.
  intros Hg localPos lx ly w inStroke inFill fillEvents.
  pose proof (getBoundingRect_keeps _ _ _ _ Hg) as (Hk & _).
  destruct Hk as (_ & Hst & _ & Htr & _).
  unfold contain, bind, gets. simpl. rewrite Hg. simpl.
  fold localPos. fold lx. fold ly. rewrite Hst.
  destruct (rectContain rect lx ly); simpl; [|reflexivity].
  destruct (pathHasStroke (style P)); simpl.
  - rewrite Htr. fold w. fold inStroke. unfold ret.
    destruct inStroke; simpl; [reflexivity|].
    subst fillEvents. destruct (pathHasFill (style P)); simpl; reflexivity.
  - subst fillEvents. unfold ret.
    destruct (pathHasFill (style P)); simpl; reflexivity.
Qed.

(** X8. The answer of [contain] in every case: the local point is inside
    the bounding rect, and the stroke is active and the stroke predicate
    holds, or the fill is active and the fill predicate holds. The state is
    left as [getBoundingRect] leaves it. Outside the rect no predicate is
    called; the stroke predicate is never called for an inactive stroke, nor
    the fill predicate for an inactive fill. *)
Theorem contain_answer P x y :
  let rect := fst (fst (getBoundingRect P)) in
  let P1 := snd (fst (getBoundingRect P)) in
  let localPos := transformCoordToLocal (transform P) x y in
  let lx := fst localPos in
  let ly := snd localPos in
  let w := effectiveLineWidth (Style.lineWidth (style P)) (transform P) in
  fst (fst (contain x y P))
  = rectContain rect lx ly
    && ((pathHasStroke (style P) && containStroke (data (path P1)) w lx ly)
        || (pathHasFill (style P) && containFill (data (path P1)) lx ly))
  /\ snd (fst (contain x y P)) = P1
  /\ (rectContain rect lx ly = false ->
      snd (contain x y P) = snd (getBoundingRect P))
  /\ (pathHasStroke (style P) = false ->
      forall lw a b, ~ In (ContainStroke lw a b) (snd (contain x y P)))
  /\ (pathHasFill (style P) = false ->
      forall a b, ~ In (ContainFill a b) (snd (contain x y P))).
Proof.
  intros rect P1 localPos lx ly w. subst rect P1.
  destruct (getBoundingRect P) as [[rect P1] evs1] eqn:Hg.
  pose proof (getBoundingRect_keeps _ _ _ _ Hg) as (_ & _ & Hev & _).
  rewrite (contain_eq P x y rect P1 evs1 Hg). simpl.
  fold localPos. fold lx. fold ly. fold w.
  split; [reflexivity|]. split; [reflexivity|]. split; [|split].
  - intros ->. by rewrite app_nil_r.
  - intros -> lw a b Hin. apply in_app_or in Hin as [Hin | Hin].
    + destruct (Hev _ Hin); discriminate.
    + destruct (rectContain rect lx ly); [|done].
      destruct (pathHasFill (style P)); simpl in Hin; [|done].
      destruct Hin as [Hin | []]. discriminate.
  - intros -> a b Hin. apply in_app_or in Hin as [Hin | Hin].
    + destruct (Hev _ Hin); discriminate.
    + destruct (rectContain rect lx ly); [|done].
      destruct (pathHasStroke (style P)); simpl in Hin; [|done].
      destruct Hin as [Hin | Hin]; [discriminate|].
      by destruct (containStroke _ _ _ _).
Qed.

(** X9. A hit test can be repeated: on the state a first [contain] left, the
    same query gives the same answer, leaves the state as it is, and
    rebuilds nothing. *)
Theorem contain_repeatable P x y :
  let P1 := snd (fst (contain x y P)) in
  fst (fst (contain x y P1)) = fst (fst (contain x y P))
  /\ snd (fst (contain x y P1)) = P1
  /\ ~ In BuildPath (snd (contain x y P1))
  /\ ~ In (ProxyBeginPath false) (snd (contain x y P1)).
Proof.
  intros P1. subst P1.
  destruct (getBoundingRect P) as [[rect P1] evs1] eqn:Hg.
  pose proof (getBoundingRect_keeps _ _ _ _ Hg) as (Hk & Hr & _).
  destruct Hk as (_ & Hst & _ & Htr & _).
  rewrite (contain_eq P x y rect P1 evs1 Hg). simpl.
  rewrite (contain_eq P1 x y rect P1 [] (getBoundingRect_cached P1 rect Hr)).
  simpl. rewrite Hst, Htr.
  split; [reflexivity|]. split; [reflexivity|].
  destruct (rectContain rect _ _); [|split; intros []].
  destruct (pathHasStroke (style P)), (pathHasFill (style P));
    simpl; try destruct (containStroke _ _ _ _); simpl;
    split; intros H; repeat (destruct H as [H | H]; try discriminate H); done.
Qed.

(** ** Painting, again *)

Lemma updateIfGradient_effect b paint P u P' evs :
  updateIfGradient b paint P = (u, P', evs) ->
  keeps P P'
  /\ forallb gradientEvent evs = true
  /\ (is_Some (_rect P) -> _rect P' = _rect P).
Proof.
  unfold updateIfGradient, when, updateCanvasGradient, bind, emit, ret.
  destruct paint as [| c | g]; [| | destruct b]; simpl.
  1,2,4: intros H; inversion H; subst; split; [apply keeps_refl|]; done.
  destruct (getBoundingRect P) as [[r P1] e1] eqn:Hg. intros H.
  inversion H; subst. clear H.
  pose proof (getBoundingRect_keeps _ _ _ _ Hg) as (Hk & _ & He & _).
  split; [exact Hk|]. split.
  - simpl. rewrite app_nil_r. apply forallb_forall. intros e Hin.
    destruct (He e Hin) as [-> | ->]; reflexivity.
  - intros [cached Hc]. rewrite (getBoundingRect_cached P cached Hc) in Hg.
    by inversion Hg.
Qed.

Lemma rebuiltProxy_keeps c P Q :
  keeps P Q -> rebuiltProxy c Q = rebuiltProxy c P.
Proof.
  intros (_ & Hst & Hsh & _ & _ & _ & _ & _ & Hbp).
  unfold rebuiltProxy. by rewrite Hst, Hsh, Hbp.
Qed.

(** One [brush], in full: its calls and the state it leaves. *)
Lemma brush_effect c P :
  exists P' eG r,
    brush c P = (tt, P', brushTrace c P eG r)
    /\ frame P P'
    /\ __dirtyPath P' = false
    /\ path P' = (if rebuilds c P then rebuiltProxy c P else path P)
    /\ (textTruthy (Style.text (style P)) = true -> _rect P' = Some r)
    /\ (is_Some (_rect P) -> _rect P' = _rect P)
    /\ forallb gradientEvent eG = true
    /\ (__dirtyPath P = false ->
        eG = []
        /\ (textTruthy (Style.text (style P)) = false -> _rect P' = _rect P)).
Proof.
  destruct (__dirtyPath P) eqn:Hd.
  - unfold brush, bind, gets, emit, when, modify, ret. simpl. rewrite Hd.
    destruct (updateIfGradient (pathHasFill (style P)) (Style.fill (style P)) P)
      as [[u1 P1] e1] eqn:E1.
    destruct (updateIfGradient (pathHasStroke (style P)) (Style.stroke (style P)) P1)
      as [[u2 P2] e2] eqn:E2.
    apply updateIfGradient_effect in E1 as (K1 & G1 & R1).
    apply updateIfGradient_effect in E2 as (K2 & G2 & R2).
    pose proof (keeps_trans _ _ _ K1 K2) as K.
    pose proof (rebuiltProxy_keeps c P P2 K) as Hrp.
    assert (HG : forallb gradientEvent (e1 ++ e2) = true)
      by (rewrite forallb_app, G1, G2; reflexivity).
    assert (HR : is_Some (_rect P) -> _rect P2 = _rect P).
    { intros Hs. rewrite R2, R1; [done | done |]. by rewrite R1. }
    destruct K as (Kty & Kst & Ksh & Ktr & Kdp & Kd & Kzr & Kct & Kbp).
    rewrite Kdp, Hd. simpl.
    unfold brushTrace, rebuilds, frame. rewrite Hd. simpl.
    rewrite <- Hrp. unfold rebuiltProxy. rewrite Kst.
    destruct (Style.lineDash (style P)) as [ld|], c,
      (pathHasFill (style P)), (pathHasStroke (style P)),
      (textTruthy (Style.text (style P)));
      cbn -[getBoundingRect];
      try match goal with
      | |- context [getBoundingRect ?X] =>
          let Eg := fresh "Eg" in
          destruct (getBoundingRect X) as [[r7 P7] e7] eqn:Eg;
          let Eg' := fresh "Eg'" in
          pose proof Eg as Eg';
          apply getBoundingRect_keeps in Eg as (K7 & R7 & _ & Hc);
          destruct (Hc eq_refl) as [-> Hp7];
          destruct K7 as (K7ty & K7st & K7sh & K7tr & K7dp & K7d & K7zr & K7ct & K7bp);
          simpl in *
      end.
    all: first
      [ exists P7, (e1 ++ e2), r7
      | eexists _, (e1 ++ e2), (BoundingRect.mk 0 0 0 0) ].
    all: (split; [cbn; rewrite <- ?app_assoc; cbn; reflexivity |]).
    all: (split; [cbn; repeat split; congruence |]).
    all: (split; [first [exact K7dp | reflexivity] |]).
    all: (split; [first [exact Hp7 | reflexivity] |]).
    all: (split; [first [intros _; exact R7 | discriminate] |]).
    all: (split; [| split; [exact HG | discriminate]]).
    all: intros Hs; cbn; try (exact (HR Hs)).
    all: destruct Hs as [c0 Hc0];
      assert (H2 : _rect P2 = Some c0) by (rewrite HR; eauto);
      erewrite getBoundingRect_cached in Eg' by exact H2;
      inversion Eg'; subst; cbn; congruence.
  - unfold brushTrace, rebuilds, rebuiltProxy, frame, softwareDash.
    destruct P as [ty st sh px tr dp d rc zr ct bp]; simpl in *; subst dp.
    unfold brush, bind, gets, emit, when, modify, ret, updateIfGradient,
      proxyBeginPath, callBuildPath, getBoundingRect.
    cbn -[pathHasStroke pathHasFill textTruthy].
    destruct (pathHasStroke st) eqn:Hs, (pathHasFill st), (Style.lineDash st), c,
      (textTruthy (Style.text st)), rc;
      cbn -[pathHasStroke]; rewrite ?Hs; cbn.
    all: eexists _, [], _.
    all: (split; [reflexivity |]).
    all: repeat split; try done.
    all: try (intros [? ?]; done).
    Unshelve. all: exact (BoundingRect.mk 0 0 0 0).
Qed.

Lemma filter_gradient_events (f : Event -> bool) (es : list Event) :
  (forall e, gradientEvent e = true -> f e = false) ->
  forallb gradientEvent es = true ->
  List.filter f es = [].
Proof.
  intros Hf. induction es as [|e es IH]; simpl; [done|].
  intros H. apply andb_true_iff in H as [He Hes].
  rewrite (Hf e He). by apply IH.
Qed.

(** X10. Every [brush] saves the context first and restores it last, and
    saves and restores it only then. *)
Theorem brush_save_restore c P :
  (exists mid, snd (brush c P) = CtxSave :: mid ++ [CtxRestore])
  /\ List.filter isSaveRestore (snd (brush c P)) = [CtxSave; CtxRestore].
Proof.
  destruct (brush_effect c P) as (P' & eG & r & Hb & _ & _ & _ & _ & _ & HG & _).
  rewrite Hb. simpl. split.
  - unfold brushTrace. cbv zeta. rewrite !app_assoc. eexists. reflexivity.
  - unfold brushTrace. simpl. rewrite !List.filter_app.
    rewrite (filter_gradient_events _ eG); [| | exact HG].
    + destruct (rebuilds c P), (Style.lineDash (style P)), c,
        (pathHasFill (style P)), (pathHasStroke (style P)),
        (textTruthy (Style.text (style P))); reflexivity.
    + intros [] He; try discriminate He; reflexivity.
Qed.

Lemma brush_fill_stroke_events c P :
  List.filter isFillStroke (snd (brush c P))
  = (if pathHasFill (style P) then [ProxyFill] else [])
    ++ (if pathHasStroke (style P) then [ProxyStroke] else []).
Proof.
  destruct (brush_effect c P) as (P' & eG & r & Hb & _ & _ & _ & _ & _ & HG & _).
  rewrite Hb. simpl. unfold brushTrace. simpl. rewrite !List.filter_app.
  rewrite (filter_gradient_events _ eG); [| | exact HG].
  - destruct (rebuilds c P), (Style.lineDash (style P)), c,
      (pathHasFill (style P)), (pathHasStroke (style P)),
      (textTruthy (Style.text (style P))); reflexivity.
  - intros [] He; try discriminate He; reflexivity.
Qed.

Lemma in_filter_fill_stroke (e : Event) (es : list Event) :
  isFillStroke e = true ->
  In e es <-> In e (List.filter isFillStroke es).
Proof.
  intros He. rewrite List.filter_In. split; [by split | by intros [? _]].
Qed.

(** X11. [brush] fills exactly when the fill is active and strokes exactly
    when the stroke is active, once each, the fill before the stroke. *)
Theorem brush_fill_then_stroke c P :
  List.filter isFillStroke (snd (brush c P))
  = (if pathHasFill (style P) then [ProxyFill] else [])
    ++ (if pathHasStroke (style P) then [ProxyStroke] else [])
  /\ (In ProxyFill (snd (brush c P)) <-> pathHasFill (style P) = true)
  /\ (In ProxyStroke (snd (brush c P)) <-> pathHasStroke (style P) = true).
Proof.
  pose proof (brush_fill_stroke_events c P) as H.
  split; [exact H|].
  split; (rewrite in_filter_fill_stroke by reflexivity); rewrite H;
    destruct (pathHasFill (style P)), (pathHasStroke (style P)); simpl;
    (split; [intros Hin | intros Heq]); try done; try (by left); try (by right; left);
    repeat (destruct Hin as [Hin | Hin]; try discriminate Hin); done.
Qed.

(** X12. The dash pattern goes to the context when the context has
    [setLineDash], and otherwise to the path proxy, and only during a
    rebuild; it never goes to both, and to neither when no pattern is set. *)
Theorem brush_dash_target c P :
  List.filter isCtxDash (snd (brush c P))
  = match Style.lineDash (style P) with
    | Some ld =>
        if c
        then [CtxSetLineDash ld; CtxLineDashOffset (Style.lineDashOffset (style P))]
        else []
    | None => []
    end
  /\ List.filter isProxyDash (snd (brush c P))
     = match Style.lineDash (style P) with
       | Some ld =>
           if negb c && rebuilds c P
           then [ProxySetLineDash ld;
                 ProxySetLineDashOffset (Style.lineDashOffset (style P))]
           else []
       | None => []
       end
  /\ (List.filter isCtxDash (snd (brush c P)) = []
      \/ List.filter isProxyDash (snd (brush c P)) = []).
Proof.
  destruct (brush_effect c P) as (P' & eG & r & Hb & _ & _ & _ & _ & _ & HG & _).
  rewrite Hb. simpl. unfold brushTrace. simpl. rewrite !List.filter_app.
  rewrite !(filter_gradient_events _ eG);
    [| intros [] He; try discriminate He; reflexivity | exact HG
     | intros [] He; try discriminate He; reflexivity | exact HG ].
  destruct (rebuilds c P), (Style.lineDash (style P)), c,
    (pathHasFill (style P)), (pathHasStroke (style P)),
    (textTruthy (Style.text (style P))); simpl; auto.
Qed.

(** X13. [brush] draws the text exactly when [style.text] is truthy, once,
    on the rect that is then the cached bounding rect. *)
Theorem brush_text c P :
  (textTruthy (Style.text (style P)) = true ->
   exists r,
     List.filter isDrawRectText (snd (brush c P)) = [DrawRectText r]
     /\ _rect (snd (fst (brush c P))) = Some r)
  /\ (textTruthy (Style.text (style P)) = false ->
      List.filter isDrawRectText (snd (brush c P)) = []).
Proof.
  destruct (brush_effect c P) as (P' & eG & r & Hb & _ & _ & _ & Hr & _ & HG & _).
  rewrite Hb. simpl. unfold brushTrace. simpl. rewrite !List.filter_app.
  rewrite (filter_gradient_events _ eG);
    [| intros [] He; try discriminate He; reflexivity | exact HG].
  split; intros Ht; rewrite Ht in *.
  - exists r. split; [|by apply Hr].
    destruct (rebuilds c P), (Style.lineDash (style P)), c,
      (pathHasFill (style P)), (pathHasStroke (style P)); reflexivity.
  - destruct (rebuilds c P), (Style.lineDash (style P)), c,
      (pathHasFill (style P)), (pathHasStroke (style P)); reflexivity.
Qed.

Lemma brush_coherent c P : coherent P -> coherent (snd (fst (brush c P))).
Proof.
  intros Hc.
  destruct (brush_effect c P) as (P' & eG & r & Hb & Hf & Hd & Hp & _).
  rewrite Hb. simpl. intros _.
  destruct Hf as (_ & Hst & Hsh & _ & _ & _ & _ & Hbp).
  rewrite Hp, Hsh, Hbp. unfold rebuilds.
  destruct (__dirtyPath P) eqn:HdP; simpl.
  - unfold rebuiltProxy. simpl.
    destruct (Style.lineDash (style P)); [destruct c|]; reflexivity.
  - destruct (softwareDash c (style P)).
    + unfold rebuiltProxy. simpl.
      destruct (Style.lineDash (style P)); [destruct c|]; reflexivity.
    + apply Hc. by left.
Qed.

(** X14. What [brush] does to the path: it leaves type, style, shape,
    transform, [__dirty], [__zr], [__clipTarget] and the builder alone; it
    always leaves [__dirtyPath] cleared; it never drops or changes a cached
    rect; and the recording is rebuilt from the current shape when the path
    was dirty or the dashes are drawn in software, and left as it was
    otherwise. *)
Theorem brush_state c P :
  let P' := snd (fst (brush c P)) in
  frame P P'
  /\ __dirtyPath P' = false
  /\ (is_Some (_rect P) -> _rect P' = _rect P)
  /\ path P' = (if rebuilds c P then rebuiltProxy c P else path P)
  /\ (rebuilds c P = true -> data (path P') = buildPath P (shape P)).
Proof.
  intros P'. subst P'.
  destruct (brush_effect c P) as (P' & eG & r & Hb & Hf & Hd & Hp & _ & Hr & _).
  rewrite Hb. simpl. split; [exact Hf|]. split; [exact Hd|].
  split; [exact Hr|]. split; [exact Hp|].
  intros Hre. rewrite Hp, Hre. unfold rebuiltProxy. simpl.
  destruct (Style.lineDash (style P)); [destruct c|]; reflexivity.
Qed.

Lemma Path_eq (P Q : Path) :
  type P = type Q -> style P = style Q -> shape P = shape Q ->
  path P = path Q -> transform P = transform Q ->
  __dirtyPath P = __dirtyPath Q -> __dirty P = __dirty Q ->
  _rect P = _rect Q -> __zr P = __zr Q ->
  __clipTarget P = __clipTarget Q -> buildPath P = buildPath Q ->
  P = Q.
Proof. destruct P, Q. simpl. intros. by subst. Qed.

(** X15. Painting again changes nothing: a second [brush] on the same
    context leaves the state exactly as the first [brush] left it. *)
Theorem brush_twice_same_state c P :
  snd (fst (brush c (snd (fst (brush c P))))) = snd (fst (brush c P)).
Proof.
  destruct (brush_effect c P)
    as (P1 & eG1 & r1 & Hb1 & Hf1 & Hd1 & Hp1 & Ht1 & _ & _ & _).
  rewrite Hb1. simpl.
  destruct (brush_effect c P1)
    as (P2 & eG2 & r2 & Hb2 & Hf2 & Hd2 & Hp2 & _ & Hr2 & _ & Hclean).
  rewrite Hb2. simpl.
  destruct (Hclean Hd1) as (_ & Hnotext).
  destruct Hf1 as (Hty1 & Hst1 & Hsh1 & Htr1 & Hdd1 & Hzr1 & Hct1 & Hbp1).
  destruct Hf2 as (Hty2 & Hst2 & Hsh2 & Htr2 & Hdd2 & Hzr2 & Hct2 & Hbp2).
  apply Path_eq; try congruence.
  - rewrite Hp2. unfold rebuilds. rewrite Hd1, Hst1. simpl.
    destruct (softwareDash c (style P)) eqn:Hsd; [|reflexivity].
    rewrite Hp1. unfold rebuilds. rewrite Hsd, orb_true_r.
    unfold rebuiltProxy. by rewrite Hst1, Hsh1, Hbp1.
  - destruct (textTruthy (Style.text (style P))) eqn:Ht.
    + apply Hr2. rewrite (Ht1 eq_refl). eauto.
    + apply Hnotext. by rewrite Hst1.
Qed.

(** ** Dirty marking, again *)

Lemma clipChain_eq stack p (m : gmap ident Path) :
  clipChain stack p m =
  match m !! p with
  | Some _ => p :: clipTail stack p m
  | None => []
  end.
Proof. unfold clipTail. destruct stack; simpl; by destruct (m !! p). Qed.

Lemma clipTail_insert p P P' (m : gmap ident Path) stack q :
  m !! p = Some P -> __clipTarget P' = __clipTarget P ->
  clipTail stack q (<[p:=P']> m) = clipTail stack q m.
Proof.
  intros Hp Hc. unfold clipTail.
  destruct (decide (p = q)) as [<-|Hne];
    [rewrite lookup_insert_eq, Hp, Hc | rewrite lookup_insert_ne by done].
  - destruct (__clipTarget P) eqn:Hcp, stack; try done.
    apply (clipChain_insert p P); congruence.
  - destruct (m !! q) as [Q|]; [|done].
    destruct (__clipTarget Q), stack; try done.
    by apply (clipChain_insert p P).
Qed.

Lemma markDirty_absorb arg P : markDirty None (markDirty arg P) = markDirty None P.
Proof. destruct P. by destruct arg as [[]|]. Qed.

Lemma markDirty_absorbed arg P : markDirty arg (markDirty None P) = markDirty None P.
Proof. destruct P. by destruct arg as [[]|]. Qed.

Lemma markDirty_idemp arg P : markDirty arg (markDirty arg P) = markDirty arg P.
Proof. destruct P. by destruct arg as [[]|]. Qed.

Lemma clipTail_nil stack p (m : gmap ident Path) :
  (m !! p = None
   \/ (exists P, m !! p = Some P /\ __clipTarget P = None)
   \/ stack = O) ->
  clipTail stack p m = [].
Proof.
  unfold clipTail. intros [H | [(P & H & Hc) | ->]].
  - by rewrite H.
  - by rewrite H, Hc.
  - destruct (m !! p) as [P|]; [|done]. by destruct (__clipTarget P).
Qed.

Lemma clipTail_S n p P e (m : gmap ident Path) :
  m !! p = Some P -> __clipTarget P = Some e ->
  clipTail (S n) p m = clipChain n e m.
Proof. intros H Hc. unfold clipTail. by rewrite H, Hc. Qed.

Lemma dirty_lookup stack : forall p arg w q,
  ents (snd (dirty stack p arg w)) !! q =
  (if decide (q ∈ clipTail stack p (ents w)) then markDirty None
   else if decide (q = p) then markDirty arg else fun Q => Q) <$> ents w !! q.
Proof.
  assert (Hplain : forall p arg (m : gmap ident Path) P q,
    m !! p = Some P ->
    <[p:=markDirty arg P]> m !! q =
    (if decide (q ∈ @nil ident) then markDirty None
     else if decide (q = p) then markDirty arg else fun Q => Q) <$> m !! q).
  { intros p arg m P q Hp. rewrite decide_False by apply not_elem_of_nil.
    destruct (decide (q = p)) as [->|Hne].
    - by rewrite lookup_insert_eq, Hp.
    - rewrite lookup_insert_ne by done. by destruct (m !! q). }
  induction stack as [|n IH]; intros p arg w q; rewrite dirty_eq;
    destruct (ents w !! p) as [P|] eqn:Hp; simpl.
  2,4: rewrite clipTail_nil by auto;
       rewrite decide_False by apply not_elem_of_nil;
       destruct (decide (q = p)) as [->|Hne];
       [by rewrite Hp | by destruct (ents w !! q)].
  - rewrite clipTail_nil by auto.
    destruct (__clipTarget P); simpl; by apply Hplain.
  - destruct (__clipTarget P) as [e|] eqn:Hct; simpl.
    2: { rewrite clipTail_nil by eauto. by apply Hplain. }
    rewrite (clipTail_S n p P e) by done.
    rewrite IH. simpl.
    rewrite (clipTail_insert p P) by (done || apply markDirty_clipTarget).
    rewrite (clipChain_eq n e (ents w)).
    destruct (decide (p = e)) as [<-|Hpe].
    + (* the path clips itself *)
      rewrite Hp.
      destruct (decide (q = p)) as [->|Hne].
      * rewrite lookup_insert_eq, Hp. simpl.
        rewrite (decide_True (P := p ∈ p :: _)) by (apply elem_of_cons; by left).
        destruct (decide (p ∈ clipTail n p (ents w)));
          simpl; by rewrite markDirty_absorb.
      * rewrite lookup_insert_ne by done.
        destruct (decide (q ∈ clipTail n p (ents w))) as [Hin|Hnin].
        -- by rewrite decide_True by (apply elem_of_cons; by right).
        -- rewrite decide_False; [done|].
           intros Hin. apply elem_of_cons in Hin as [?|?]; done.
    + destruct (decide (q = p)) as [->|Hne].
      * rewrite lookup_insert_eq, Hp. simpl.
        rewrite (decide_False (P := p = e)) by done.
        destruct (ents w !! e) as [E|] eqn:He.
        -- destruct (decide (p ∈ clipTail n e (ents w))) as [Hin|Hnin].
           ++ rewrite decide_True by (apply elem_of_cons; by right).
              by rewrite markDirty_absorb.
           ++ rewrite decide_False; [done|].
              intros Hin. apply elem_of_cons in Hin as [?|?]; done.
        -- rewrite (clipTail_nil n e) by auto.
           by rewrite !decide_False by apply not_elem_of_nil.
      * rewrite lookup_insert_ne by done.
        destruct (ents w !! e) as [E|] eqn:He.
        -- destruct (decide (q ∈ clipTail n e (ents w))) as [Hin|Hnin].
           ++ by rewrite decide_True by (apply elem_of_cons; by right).
           ++ destruct (decide (q = e)) as [->|Hqe].
              ** by rewrite decide_True by (apply elem_of_cons; by left).
              ** rewrite decide_False; [done|].
                 intros Hin. apply elem_of_cons in Hin as [?|?]; done.
        -- rewrite (clipTail_nil n e) by auto.
           rewrite !decide_False by apply not_elem_of_nil.
           destruct (decide (q = e)) as [->|Hqe]; [by rewrite He|].
           by destruct (ents w !! q).
Qed.

(** X16. The store after [dirty], object by object: the objects reached
    through [__clipTarget] are marked as by [dirty()], the receiver (when the
    chain does not lead back to it) is marked as its argument says, and every
    other object is left as it was. No object is added or removed. *)
Theorem dirty_store stack p arg w :
  (forall q,
     ents (snd (dirty stack p arg w)) !! q =
     (if decide (q ∈ clipTail stack p (ents w)) then markDirty None
      else if decide (q = p) then markDirty arg else fun Q => Q)
       <$> ents w !! q)
  /\ (forall q,
        is_Some (ents (snd (dirty stack p arg w)) !! q)
        <-> is_Some (ents w !! q)).
Proof.
  split; intros q; rewrite dirty_lookup; [reflexivity|].
  apply fmap_is_Some.
Qed.

Lemma clipChain_dirtied (m m' : gmap ident Path) :
  (forall q, option_Forall2 dirtied (m !! q) (m' !! q)) ->
  forall stack p, clipChain stack p m' = clipChain stack p m.
Proof.
  intros H. induction stack as [|n IH]; intros p; simpl;
    destruct (H p) as [P P' Hd|]; try done;
    rewrite (dirtied_clipTarget _ _ Hd);
    destruct (__clipTarget P); by rewrite ?IH.
Qed.

Lemma clipTail_dirtied (m m' : gmap ident Path) stack p :
  (forall q, option_Forall2 dirtied (m !! q) (m' !! q)) ->
  clipTail stack p m' = clipTail stack p m.
Proof.
  intros H. unfold clipTail. destruct (H p) as [P P' Hd|]; try done.
  rewrite (dirtied_clipTarget _ _ Hd).
  destruct (__clipTarget P), stack; try done. by apply clipChain_dirtied.
Qed.

(** X17. Marking twice is marking once: a second [dirty] with the same
    argument leaves every object of the store as the first left it. *)
Theorem dirty_idempotent stack p arg w :
  ents (snd (dirty stack p arg (snd (dirty stack p arg w))))
  = ents (snd (dirty stack p arg w)).
Proof.
  apply map_eq. intros q. rewrite dirty_lookup.
  rewrite (clipTail_dirtied (ents w)) by apply dirty_effect.
  rewrite dirty_lookup.
  destruct (ents w !! q) as [Q|]; [simpl|done].
  destruct (decide (q ∈ clipTail stack p (ents w))).
  - by rewrite markDirty_absorb.
  - destruct (decide (q = p)); [|done]. by rewrite markDirty_idemp.
Qed.

Lemma chainEvents_insert p P P' (m : gmap ident Path) :
  m !! p = Some P -> __clipTarget P' = __clipTarget P -> __zr P' = __zr P ->
  forall stack q arg,
    chainEvents stack q arg (<[p:=P']> m) = chainEvents stack q arg m.
Proof.
  intros Hp Hc Hz. induction stack as [|n IH]; intros q arg; simpl;
    (destruct (decide (p = q)) as [<-|Hne];
     [rewrite lookup_insert_eq, Hp, Hc; unfold dirtyEvents; rewrite Hz
     | rewrite lookup_insert_ne by done]).
  - by destruct (__clipTarget P).
  - reflexivity.
  - destruct (__clipTarget P); by rewrite ?IH.
  - destruct (m !! q) as [Q|]; [|done]. destruct (__clipTarget Q); by rewrite ?IH.
Qed.

Lemma markDirty_zr arg P : __zr (markDirty arg P) = __zr P.
Proof. by destruct arg as [[]|]. Qed.

Lemma dirty_log_chain stack : forall p arg w,
  log (snd (dirty stack p arg w)) = log w ++ chainEvents stack p arg (ents w).
Proof.
  induction stack as [|n IH]; intros p arg w; rewrite dirty_eq; simpl;
    destruct (ents w !! p) as [P|] eqn:Hp; simpl;
    try (by rewrite app_nil_r).
  - destruct (__clipTarget P); simpl; by rewrite app_nil_r.
  - destruct (__clipTarget P) as [e|]; simpl; [|by rewrite app_nil_r].
    rewrite IH. simpl.
    rewrite (chainEvents_insert p P)
      by (done || apply markDirty_clipTarget || apply markDirty_zr).
    by rewrite <- app_assoc.
Qed.

Lemma chainCalls_None stack p (m : gmap ident Path) :
  chainCalls stack p None m = map (fun e => (e, None)) (clipChain stack p m).
Proof. unfold chainCalls. by destruct (clipChain stack p m). Qed.

Lemma chainEvents_calls stack : forall p arg (m : gmap ident Path),
  chainEvents stack p arg m = flat_map (callsOn m) (chainCalls stack p arg m).
Proof.
  induction stack as [|n IH]; intros p arg m; unfold chainCalls; simpl;
    destruct (m !! p) as [P|] eqn:Hp; simpl; try done.
  - unfold callsOn at 1. simpl. rewrite Hp.
    destruct (__clipTarget P); simpl; by rewrite ?app_nil_r.
  - unfold callsOn at 1. simpl. rewrite Hp.
    destruct (__clipTarget P) as [e|]; simpl; [|by rewrite ?app_nil_r].
    by rewrite IH, chainCalls_None.
Qed.

(** X18. The calls of one [dirty], in order: for each object of the clip
    chain, the receiver first, the [dirty] itself (with the caller's argument
    on the receiver and with none on the others) and then [__zr.refresh()]
    when the object is attached. Nothing else is called. *)
Theorem dirty_log stack p arg w :
  log (snd (dirty stack p arg w))
  = log w ++ flat_map (callsOn (ents w)) (chainCalls stack p arg (ents w)).
Proof. by rewrite dirty_log_chain, chainEvents_calls. Qed.

Lemma closedStore_insert p P P' (m : gmap ident Path) :
  m !! p = Some P -> __clipTarget P' = __clipTarget P ->
  closedStore m -> closedStore (<[p:=P']> m).
Proof.
  intros Hp Hc Hcl q Q e Hq He.
  apply lookup_insert_is_Some'.
  destruct (decide (p = q)) as [<-|Hne].
  - rewrite lookup_insert_eq in Hq. inversion Hq; subst Q.
    right. apply (Hcl p P e); congruence.
  - rewrite lookup_insert_ne in Hq by done. right. by apply (Hcl q Q e).
Qed.

(** X19. In a store where every [__clipTarget] names an object, [dirty] on
    an object of the store returns exactly when the clip chain ends within
    the room of the stack, and ends in a [RangeError] otherwise (a chain
    that is too long, or a cycle). *)
Theorem dirty_returns_iff stack : forall p arg w,
  closedStore (ents w) ->
  is_Some (ents w !! p) ->
  fst (dirty stack p arg w)
  = if chainEnds stack p (ents w) then Returned tt else RangeError.
Proof.
  induction stack as [|n IH]; intros p arg w Hcl [P Hp]; rewrite dirty_eq; simpl;
    rewrite Hp; simpl.
  - by destruct (__clipTarget P).
  - destruct (__clipTarget P) as [e|] eqn:Hc; simpl; [|done].
    rewrite IH.
    + simpl. by rewrite (chainEnds_insert p P)
        by (done || apply markDirty_clipTarget).
    + simpl. apply (closedStore_insert p P);
        [done | apply markDirty_clipTarget | done].
    + simpl. apply lookup_insert_is_Some'. right. by apply (Hcl p P e).
Qed.

(** ** The shape setter, again *)

Lemma setShape_without_shape_eq stack w p P key value :
  ents w !! p = Some P -> shape P = None ->
  setShape stack p key value w = (Returned p, w).
Proof. intros Hp Hs. unfold setShape. by rewrite Hp, Hs. Qed.

Lemma assignAll_lookup (key shape0 : gmap string Value) name :
  assignAll key shape0 !! name =
  match key !! name with
  | Some v => Some v
  | None => shape0 !! name
  end.
Proof.
  unfold assignAll. revert name.
  apply (map_fold_weak_ind
    (fun (r : gmap string Value) (m : gmap string Value) =>
       forall name, r !! name =
         match m !! name with Some v => Some v | None => shape0 !! name end)).
  - intros name. by rewrite lookup_empty.
  - intros i x m r Hi IH name. destruct (decide (i = name)) as [<-|Hne].
    + by rewrite !lookup_insert_eq.
    + rewrite !lookup_insert_ne by done. apply IH.
Qed.

(** The shape [setShape] writes. *)
Lemma setShape_store stack p key value w P sh :
  ents w !! p = Some P ->
  shape P = Some sh ->
  exists P',
    ents (snd (setShape stack p key value w)) !! p = Some P'
    /\ dirtied
         (markDirty (Some true)
            (set_shape
               (Some match key with
                     | KeyObject o => assignAll o sh
                     | KeyName k => <[k := value]> sh
                     end) P)) P'.
Proof.
  intros Hp Hs. unfold setShape. rewrite Hp, Hs.
  match goal with |- context [dirty stack p (Some true) ?w0] =>
    set (w1 := w0) end.
  assert (H1 : ents w1 !! p = Some (set_shape
               (Some match key with
                     | KeyObject o => assignAll o sh
                     | KeyName k => <[k := value]> sh
                     end) P)) by apply lookup_insert_eq.
  destruct (dirty_self stack p (Some true) w1 _ H1) as (P' & evs & HP' & Hd & _).
  exists P'. split; [|exact Hd].
  by destruct (dirty stack p (Some true) w1) as [[] ?].
Qed.

(** X20. [setShape(key, value)] on a path with a shape: afterwards the
    shape has [value] under [key] and every other key as before; the path
    has no cached rect and has [__dirtyPath] and [__dirty] set; its style,
    transform and recording are as they were. *)
Theorem setShape_key stack p k value w P sh :
  ents w !! p = Some P ->
  shape P = Some sh ->
  exists P' sh',
    ents (snd (setShape stack p (KeyName k) value w)) !! p = Some P'
    /\ shape P' = Some sh'
    /\ sh' !! k = Some value
    /\ (forall k', k' <> k -> sh' !! k' = sh !! k')
    /\ _rect P' = None /\ __dirtyPath P' = true /\ __dirty P' = true
    /\ style P' = style P /\ transform P' = transform P /\ path P' = path P.
Proof.
  intros Hp Hs.
  destruct (setShape_store stack p (KeyName k) value w P sh Hp Hs)
    as (P' & HP' & Hd).
  exists P', (<[k := value]> sh). split; [exact HP'|].
  destruct P. destruct Hd as [-> | [-> | ->]]; simpl;
    (split; [reflexivity|]); (split; [apply lookup_insert_eq|]);
    (split; [intros k' Hne; by apply lookup_insert_ne|]); done.
Qed.

(** X21. [setShape(object)] on a path with a shape copies every entry of
    the object into the shape and keeps the entries under other keys; the
    path is invalidated as above. *)
Theorem setShape_object stack p o value w P sh :
  ents w !! p = Some P ->
  shape P = Some sh ->
  exists P' sh',
    ents (snd (setShape stack p (KeyObject o) value w)) !! p = Some P'
    /\ shape P' = Some sh'
    /\ (forall name,
          sh' !! name =
          match o !! name with Some v => Some v | None => sh !! name end)
    /\ _rect P' = None /\ __dirtyPath P' = true /\ __dirty P' = true.
Proof.
  intros Hp Hs.
  destruct (setShape_store stack p (KeyObject o) value w P sh Hp Hs)
    as (P' & HP' & Hd).
  exists P', (assignAll o sh). split; [exact HP'|].
  destruct P. destruct Hd as [-> | [-> | ->]]; simpl;
    (split; [reflexivity|]); (split; [apply assignAll_lookup|]); done.
Qed.

(** X22. [attrKV('shape', value)] never replaces the shape: on a path with
    a shape every key of the shape is still a key afterwards, the entries of
    an object value are copied in, and a value that is not an object
    becomes a key holding [undefined]; on a path without a shape nothing
    happens. *)
Theorem attrKV_shape stack p value w P :
  ents w !! p = Some P ->
  (shape P = None -> attrKV stack p "shape" value w = (Returned tt, w))
  /\ (forall sh, shape P = Some sh ->
      exists P' sh',
        ents (snd (attrKV stack p "shape" value w)) !! p = Some P'
        /\ shape P' = Some sh'
        /\ (forall name, is_Some (sh !! name) -> is_Some (sh' !! name))
        /\ match value with
           | KeyObject o => forall name v, o !! name = Some v -> sh' !! name = Some v
           | KeyName k => sh' !! k = Some undefinedValue
           end
        /\ _rect P' = None /\ __dirtyPath P' = true).
Proof.
  intros Hp. unfold attrKV. simpl. split.
  - intros Hs. by rewrite (setShape_without_shape_eq stack w p P value undefinedValue Hp Hs).
  - intros sh Hs.
    assert (Hw : forall r : Completion ident * World,
      ents (snd (match r with
                 | (Returned _, w') => (Returned tt, w')
                 | (RangeError, w') => (RangeError, w')
                 | (Unbound, w') => (Unbound, w')
                 end)) = ents (snd r)) by (by intros [[] ?]).
    rewrite Hw.
    destruct (setShape_store stack p value undefinedValue w P sh Hp Hs)
      as (P' & HP' & Hd).
    exists P'. destruct value as [o | k].
    + exists (assignAll o sh). split; [exact HP'|].
      assert (Hl := assignAll_lookup o sh).
      destruct P. destruct Hd as [-> | [-> | ->]]; simpl;
        (split; [reflexivity|]); (split; [|split; [|done]]);
        try (intros name [v Hv]; rewrite Hl; destruct (o !! name); eauto);
        intros name v Hv; by rewrite Hl, Hv.
    + exists (<[k := undefinedValue]> sh). split; [exact HP'|].
      assert (Hk : forall name, is_Some (sh !! name) ->
                     is_Some (<[k := undefinedValue]> sh !! name)).
      { intros name Hv. apply lookup_insert_is_Some'. by right. }
      destruct P. destruct Hd as [-> | [-> | ->]]; simpl;
        (split; [reflexivity|]); (split; [exact Hk|]);
        (split; [apply lookup_insert_eq | done]).
Qed.

(** ** Invariants of the public operations *)

Lemma evolves_refl Q : evolves Q Q.
Proof. by repeat split. Qed.

Lemma evolves_trans P Q S : evolves P Q -> evolves Q S -> evolves P S.
Proof.
  intros [(? & ? & ? & ? & ? & ? & ?) ?] [(? & ? & ? & ? & ? & ? & ?) ?].
  split; [repeat split; try congruence; auto | auto].
Qed.

Lemma getBoundingRect_evolves P : evolves P (snd (fst (getBoundingRect P))).
Proof.
  destruct (_rect P) as [cached|] eqn:Hr.
  - rewrite (getBoundingRect_cached P cached Hr). apply evolves_refl.
  - rewrite (getBoundingRect_fresh P Hr). simpl. split; [by repeat split|].
    intros Hc _. simpl. unfold currentGeometry.
    destruct (__dirtyPath P) eqn:Hd; simpl; [reflexivity|].
    apply Hc. by left.
Qed.

Lemma contain_state P x y :
  snd (fst (contain x y P)) = snd (fst (getBoundingRect P)).
Proof.
  destruct (getBoundingRect P) as [[rect P1] evs1] eqn:Hg.
  by rewrite (contain_eq P x y rect P1 evs1 Hg).
Qed.

Lemma brush_evolves c P : evolves P (snd (fst (brush c P))).
Proof.
  split; [|apply brush_coherent].
  destruct (brush_effect c P) as (P' & eG & r & Hb & Hf & _).
  rewrite Hb. simpl.
  destruct Hf as (? & ? & ? & ? & ? & ? & ? & ?).
  repeat split; congruence.
Qed.

Lemma dirtied_evolves Q Q' : dirtied Q Q' -> evolves Q Q'.
Proof.
  destruct Q. intros [-> | [-> | ->]];
    [apply evolves_refl | split; [by repeat split|] ..].
  - unfold coherent. simpl. auto.
  - unfold coherent. simpl. intros _ [? | [? ?]]; done.
Qed.

Lemma set_shape_dirtied_evolves Q Q' sh :
  dirtied (markDirty (Some true) (set_shape sh Q)) Q' -> evolves Q Q'.
Proof.
  destruct Q. intros [-> | [-> | ->]]; (split; [by repeat split|]);
    unfold coherent; simpl; intros _ [? | [? ?]]; done.
Qed.

Lemma invoke_evolves {A} p (m : Meth A) w q :
  (forall P, evolves P (snd (fst (m P)))) ->
  option_Forall2 evolves (ents w !! q) (ents (snd (invoke p m w)) !! q).
Proof.
  intros Hm. unfold invoke. destruct (ents w !! p) as [P|] eqn:Hp.
  - specialize (Hm P). destruct (m P) as [[a P'] evs]. simpl in *.
    destruct (decide (p = q)) as [<-|Hne].
    + rewrite lookup_insert_eq, Hp. by constructor.
    + rewrite lookup_insert_ne by done.
      destruct (ents w !! q); constructor. apply evolves_refl.
  - simpl. destruct (ents w !! q); constructor. apply evolves_refl.
Qed.

Lemma setShape_evolves stack p key value w q :
  option_Forall2 evolves (ents w !! q)
    (ents (snd (setShape stack p key value w)) !! q).
Proof.
  assert (Hid : option_Forall2 evolves (ents w !! q) (ents w !! q)).
  { destruct (ents w !! q); constructor. apply evolves_refl. }
  destruct (ents w !! p) as [P|] eqn:Hp;
    [| unfold setShape; by rewrite Hp].
  destruct (shape P) as [sh|] eqn:Hs;
    [| unfold setShape; by rewrite Hp, Hs].
  destruct (decide (p = q)) as [<-|Hne].
  - destruct (setShape_store stack p key value w P sh Hp Hs) as (P' & HP' & Hd).
    rewrite Hp, HP'. constructor. by eapply set_shape_dirtied_evolves.
  - unfold setShape. rewrite Hp, Hs.
    match goal with |- context [dirty stack p (Some true) ?w0] =>
      set (w1 := w0) end.
    destruct (dirty_effect stack p (Some true) w1) as [Hq _].
    specialize (Hq q). subst w1. simpl in Hq.
    rewrite lookup_insert_ne in Hq by done.
    match goal with |- option_Forall2 _ _ (ents (snd ?r) !! q) =>
      assert (Hw : ents (snd r)
                   = ents (snd (dirty stack p (Some true)
                                  (commit p (set_shape
                                     (Some match key with
                                           | KeyObject o => assignAll o sh
                                           | KeyName k => <[k := value]> sh
                                           end) P) [] w))))
    end.
    { by destruct (dirty _ _ _ _) as [[] ?]. }
    rewrite Hw.
    destruct Hq; constructor. by apply dirtied_evolves.
Qed.

Lemma step_evolves stack o w q :
  option_Forall2 evolves (ents w !! q) (ents (step stack o w) !! q).
Proof.
  destruct o as [p c | p | p x y | p key value | p arg]; simpl.
  - apply invoke_evolves. intros P. apply brush_evolves.
  - apply invoke_evolves. intros P. apply getBoundingRect_evolves.
  - apply invoke_evolves. intros P. rewrite contain_state.
    apply getBoundingRect_evolves.
  - apply setShape_evolves.
  - destruct (dirty_effect stack p arg w) as [Hq _]. specialize (Hq q).
    destruct Hq; constructor. by apply dirtied_evolves.
Qed.

Lemma run_evolves stack ops : forall w q,
  option_Forall2 evolves (ents w !! q) (ents (run stack ops w) !! q).
Proof.
  induction ops as [|o ops IH]; intros w q; simpl.
  - destruct (ents w !! q); constructor. apply evolves_refl.
  - specialize (IH (step stack o w) q).
    pose proof (step_evolves stack o w q) as Hs.
    destruct Hs as [Q Q1 H1|]; inversion IH; subst; constructor.
    by eapply evolves_trans.
Qed.

(** X23. No sequence of public operations ([brush], [getBoundingRect],
    [contain], [setShape], [dirty]) adds or removes an object, changes the
    type, style, transform, attachment, clip target or builder of one, or
    clears a [__dirty] that was set. *)
Theorem run_keeps_objects stack ops w q :
  option_Forall2 untouched (ents w !! q) (ents (run stack ops w) !! q).
Proof.
  destruct (run_evolves stack ops w q) as [Q Q' [H _]|]; by constructor.
Qed.

(** ** Extension, again *)

(** X25. The first paint of a new object of an extended kind (with no
    [init] hook) records the commands the kind's [buildPath] writes for the
    shape with the defaults merged in, and leaves the object clean; a kind
    that gives no [buildPath] records nothing. *)
Theorem extend_first_brush defaults opts c :
  def_init defaults = None ->
  let P := extend defaults opts in
  let P' := snd (fst (brush c P)) in
  data (path P')
  = match def_buildPath defaults with
    | Some build => build (shape P)
    | None => []
    end
  /\ In BuildPath (snd (brush c P))
  /\ __dirtyPath P' = false
  /\ shape P' = shape P
  /\ shape P
     = match def_shape defaults with
       | Some defaultShape =>
           Some (extendShape defaultShape (default ∅ (opts_shape opts)))
       | None => opts_shape opts
       end.
Proof.
  intros Hi P P'. subst P'.
  assert (Hd : __dirtyPath P = true).
  { subst P. unfold extend. rewrite Hi.
    destruct (def_shape defaults), (def_style defaults); reflexivity. }
  assert (Hb : buildPath P = default (fun _ => []) (def_buildPath defaults)).
  { subst P. unfold extend. rewrite Hi.
    destruct (def_shape defaults), (def_style defaults); reflexivity. }
  assert (Hs : shape P
     = match def_shape defaults with
       | Some defaultShape =>
           Some (extendShape defaultShape (default ∅ (opts_shape opts)))
       | None => opts_shape opts
       end).
  { subst P. unfold extend. rewrite Hi.
    destruct (def_shape defaults), (def_style defaults); reflexivity. }
  assert (Hbuild : In BuildPath (snd (brush c P))).
  { destruct (brush_dirty c P Hd) as (P1 & pre & post & Hb1 & _ & _ & _ & Hin & _).
    rewrite Hb1. simpl. apply in_or_app. right. by right. }
  destruct (brush_effect c P) as (P' & eG & r & Hbr & Hf & Hdp & Hp & _).
  rewrite Hbr in *. simpl in *.
  destruct Hf as (_ & _ & Hsh & _).
  split; [|split; [exact Hbuild | split; [exact Hdp | split; [exact Hsh | exact Hs]]]].
  rewrite Hp. unfold rebuilds. rewrite Hd. simpl. unfold rebuiltProxy.
  rewrite Hb. simpl.
  destruct (Style.lineDash (style P)); [destruct c|]; simpl;
    by destruct (def_buildPath defaults).
Qed.

(** ** An inactive stroke *)

Lemma pathHasStroke_inactive (st : Style.t) :
  Style.stroke st = PaintAbsent
  \/ Style.stroke st = PaintColor "none"
  \/ (Style.lineWidth st <= 0)%R ->
  pathHasStroke st = false.
Proof.
  unfold pathHasStroke. intros [-> | [-> | H]]; try reflexivity.
  apply Rgtb_false in H. rewrite H. apply andb_false_r.
Qed.

(** X26. A stroke that is absent, ['none'], or of a line width that is not
    positive is inactive everywhere: [brush] does not stroke, a freshly
    computed bounding rect is the raw bounds, and [contain] never calls the
    stroke predicate and answers as the fill alone does. *)
Theorem inactive_stroke c x y P :
  Style.stroke (style P) = PaintAbsent
  \/ Style.stroke (style P) = PaintColor "none"
  \/ (Style.lineWidth (style P) <= 0)%R ->
  ~ In ProxyStroke (snd (brush c P))
  /\ (_rect P = None ->
      fst (fst (getBoundingRect P)) = proxyBoundingRect (currentGeometry P))
  /\ (forall lw a b, ~ In (ContainStroke lw a b) (snd (contain x y P)))
  /\ fst (fst (contain x y P))
     = (let rect := fst (fst (getBoundingRect P)) in
        let localPos := transformCoordToLocal (transform P) x y in
        rectContain rect (fst localPos) (snd localPos)
        && (pathHasFill (style P)
            && containFill (data (path (snd (fst (getBoundingRect P)))))
                 (fst localPos) (snd localPos))).
Proof.
  intros H. apply pathHasStroke_inactive in H.
  split; [|split; [|split]].
  - intros Hin. apply in_filter_fill_stroke in Hin; [|reflexivity].
    rewrite brush_fill_stroke_events, H in Hin.
    destruct (pathHasFill (style P)); simpl in Hin;
      repeat (destruct Hin as [Hin | Hin]; try discriminate Hin); done.
  - intros Hn. rewrite (getBoundingRect_fresh P Hn). simpl.
    unfold boundsOf. by rewrite H.
  - intros lw a b Hin.
    destruct (getBoundingRect P) as [[rect P1] evs1] eqn:Hg.
    pose proof (getBoundingRect_keeps _ _ _ _ Hg) as (_ & _ & Hev & _).
    rewrite (contain_eq P x y rect P1 evs1 Hg), H in Hin. simpl in Hin.
    apply in_app_or in Hin as [Hin | Hin].
    + destruct (Hev _ Hin); discriminate.
    + destruct (rectContain rect _ _); [|done].
      destruct (pathHasFill (style P)); simpl in Hin; [|done].
      destruct Hin as [Hin | []]. discriminate.
  - destruct (getBoundingRect P) as [[rect P1] evs1] eqn:Hg.
    rewrite (contain_eq P x y rect P1 evs1 Hg), H. reflexivity.
Qed.

(** ** Shape objects held by several paths *)

Lemma loadShapes_lookup refs objs (m : gmap ident Path) q :
  loadShapes refs objs m !! q = set_shape (shapeAt refs objs q) <$> m !! q.
Proof.
  unfold loadShapes. rewrite map_lookup_imap. by destruct (m !! q).
Qed.

Lemma view_lookup (s : Store) q :
  ents (view s) !! q
  = set_shape (shapeAt (shapeRef s) (shapeObjects s) q) <$> ents (paths s) !! q.
Proof. apply loadShapes_lookup. Qed.

Lemma set_shape_same (Q : Path) : set_shape (shape Q) Q = Q.
Proof. by destruct Q. Qed.

Lemma set_shape_twice sh sh' (Q : Path) :
  set_shape sh' (set_shape sh Q) = set_shape sh' Q.
Proof. by destruct Q. Qed.

(** A world whose paths carry the shapes of their references is its own
    view. *)
Lemma view_loaded refs objs (w : World) :
  (forall q Q, ents w !! q = Some Q -> shape Q = shapeAt refs objs q) ->
  view (mkStore w refs objs) = w.
Proof.
  intros H. destruct w as [m lg]. unfold view. simpl. f_equal.
  apply map_eq. intros q. rewrite loadShapes_lookup.
  destruct (m !! q) as [Q|] eqn:Hq; [simpl|done].
  by rewrite <- (H q Q Hq), set_shape_same.
Qed.

Lemma view_after (s : Store) (w' : World) :
  (forall q, option_Forall2 sameShape (ents (view s) !! q) (ents w' !! q)) ->
  view (mkStore w' (shapeRef s) (shapeObjects s)) = w'.
Proof.
  intros H. apply view_loaded. intros q Q' HQ'.
  specialize (H q). rewrite HQ' in H.
  inversion H as [Q ? Hs HQ|]; subst. unfold sameShape in Hs. rewrite Hs.
  simpl in HQ. rewrite loadShapes_lookup in HQ.
  destruct (ents (paths s) !! q) as [Q0|]; [|discriminate].
  simpl in HQ. inversion HQ. by destruct Q0.
Qed.

Lemma sameShape_refl_lookup (m : gmap ident Path) q :
  option_Forall2 sameShape (m !! q) (m !! q).
Proof. destruct (m !! q); by constructor. Qed.

Lemma dirtied_shape (Q Q' : Path) : dirtied Q Q' -> shape Q' = shape Q.
Proof. by intros [-> | [-> | ->]]. Qed.

Lemma dirty_sameShape stack p arg w q :
  option_Forall2 sameShape (ents w !! q) (ents (snd (dirty stack p arg w)) !! q).
Proof.
  destruct (proj1 (dirty_effect stack p arg w) q) as [Q Q' Hd|];
    constructor. by apply dirtied_shape.
Qed.

Lemma invoke_sameShape {A} p (m : Meth A) w q :
  (forall P, shape (snd (fst (m P))) = shape P) ->
  option_Forall2 sameShape (ents w !! q) (ents (snd (invoke p m w)) !! q).
Proof.
  intros Hm. unfold invoke. destruct (ents w !! p) as [P|] eqn:Hp;
    [|apply sameShape_refl_lookup].
  specialize (Hm P). destruct (m P) as [[a P'] evs]. simpl in *.
  destruct (decide (p = q)) as [<-|Hne].
  - rewrite lookup_insert_eq, Hp. by constructor.
  - rewrite lookup_insert_ne by done. apply sameShape_refl_lookup.
Qed.

Lemma getBoundingRect_shape P : shape (snd (fst (getBoundingRect P))) = shape P.
Proof.
  destruct (getBoundingRect P) as [[rect P1] evs] eqn:Hg. simpl.
  apply getBoundingRect_keeps in Hg as ((_ & _ & Hs & _) & _). exact Hs.
Qed.

Lemma brush_shape c P : shape (snd (fst (brush c P))) = shape P.
Proof.
  destruct (brush_effect c P) as (P' & eG & r & Hb & (_ & _ & Hs & _) & _).
  by rewrite Hb.
Qed.

(** Only [setShape] changes the shape of a path. *)
Lemma step_sameShape stack o w q :
  (forall p key value, o <> OpSetShape p key value) ->
  option_Forall2 sameShape (ents w !! q) (ents (step stack o w) !! q).
Proof.
  intros Ho. destruct o as [p c | p | p x y | p key value | p arg]; simpl.
  - apply invoke_sameShape. intros P. apply brush_shape.
  - apply invoke_sameShape. intros P. apply getBoundingRect_shape.
  - apply invoke_sameShape. intros P. rewrite contain_state.
    apply getBoundingRect_shape.
  - by destruct (Ho p key value).
  - apply dirty_sameShape.
Qed.

Lemma view_stepIn stack o s :
  (forall p key value, o <> OpSetShape p key value) ->
  view (stepIn stack o s) = step stack o (view s).
Proof.
  intros Ho.
  assert (H : stepIn stack o s
              = mkStore (step stack o (view s)) (shapeRef s) (shapeObjects s)).
  { destruct o; try reflexivity. by destruct (Ho p key value). }
  rewrite H. apply view_after. intros q. by apply step_sameShape.
Qed.

(** The view after the write and the marking of [setShape]. *)
Lemma view_setShapeIn stack p key value s P l sh :
  ents (paths s) !! p = Some P ->
  shapeRef s !! p = Some l ->
  shapeObjects s !! l = Some sh ->
  let s1 := mkStore (paths s) (shapeRef s)
              (<[l := writtenShape key value sh]> (shapeObjects s)) in
  view (snd (setShapeIn stack p key value s))
  = snd (dirty stack p (Some true) (view s1))
  /\ shapeRef (snd (setShapeIn stack p key value s)) = shapeRef s
  /\ shapeObjects (snd (setShapeIn stack p key value s))
     = <[l := writtenShape key value sh]> (shapeObjects s).
Proof.
  intros Hp Hl Hsh s1. unfold setShapeIn. rewrite Hp, Hl, Hsh.
  fold (writtenShape key value sh). cbv zeta. fold s1.
  pose proof (view_after s1 (snd (dirty stack p (Some true) (view s1)))
                (dirty_sameShape stack p (Some true) (view s1))) as Hv.
  simpl in Hv.
  destruct (dirty stack p (Some true) (view s1)) as [[] w2]; simpl in *;
    by rewrite Hv.
Qed.

Lemma shapeRef_stepIn stack o s : shapeRef (stepIn stack o s) = shapeRef s.
Proof.
  destruct o as [p c | p | p x y | p key value | p arg]; try reflexivity.
  simpl. unfold setShapeIn.
  destruct (ents (paths s) !! p); [|done].
  destruct (shapeRef s !! p) as [l|]; [|done].
  destruct (shapeObjects s !! l); [|done].
  by destruct (dirty _ _ _ _) as [[] ?].
Qed.

(** When no shape object is shared, [setShape] on the store with references
    is [setShape] on the paths with their shapes. *)
Lemma view_setShapeIn_unshared stack p key value s :
  unshared (shapeRef s) ->
  view (snd (setShapeIn stack p key value s))
  = snd (setShape stack p key value (view s)).
Proof.
  intros Hu.
  assert (Hv : ents (view s) !! p
               = set_shape (shapeAt (shapeRef s) (shapeObjects s) p)
                   <$> ents (paths s) !! p) by apply loadShapes_lookup.
  destruct (ents (paths s) !! p) as [P|] eqn:Hp.
  2: { unfold setShapeIn, setShape. by rewrite Hp, Hv. }
  change (ents (view s) !! p
          = Some (set_shape (shapeAt (shapeRef s) (shapeObjects s) p) P)) in Hv.
  destruct (shapeRef s !! p) as [l|] eqn:Hl.
  2: { unfold setShapeIn, setShape. rewrite Hp, Hl, Hv.
       unfold shapeAt. by rewrite Hl. }
  destruct (shapeObjects s !! l) as [sh|] eqn:Hsh.
  2: { unfold setShapeIn, setShape. rewrite Hp, Hl, Hsh, Hv.
       unfold shapeAt. by rewrite Hl, Hsh. }
  destruct (view_setShapeIn stack p key value s P l sh Hp Hl Hsh) as (-> & _).
  unfold setShape. rewrite Hv. unfold shapeAt at 1. rewrite Hl, Hsh.
  simpl shape. fold (writtenShape key value sh). cbv zeta.
  assert (H1 : view (mkStore (paths s) (shapeRef s)
                       (<[l := writtenShape key value sh]> (shapeObjects s)))
               = commit p
                   (set_shape (Some (writtenShape key value sh))
                      (set_shape (shapeAt (shapeRef s) (shapeObjects s) p) P))
                   [] (view s)).
  { unfold view, commit. simpl. rewrite app_nil_r. f_equal.
    apply map_eq. intros q. rewrite loadShapes_lookup.
    destruct (decide (p = q)) as [<-|Hne].
    - rewrite lookup_insert_eq, Hp. simpl. unfold shapeAt at 1.
      by rewrite Hl, lookup_insert_eq, set_shape_twice.
    - rewrite lookup_insert_ne by done. rewrite loadShapes_lookup.
      destruct (ents (paths s) !! q) as [Q|]; [simpl|done].
      do 2 f_equal. unfold shapeAt.
      destruct (shapeRef s !! q) as [l'|] eqn:Hq; [|done].
      rewrite lookup_insert_ne; [done|].
      intros <-. apply Hne. by apply (Hu p q l). }
  rewrite H1.
  by destruct (dirty stack p (Some true) _) as [[] ?].
Qed.

Lemma view_stepIn_unshared stack o s :
  unshared (shapeRef s) ->
  view (stepIn stack o s) = step stack o (view s).
Proof.
  intros Hu. destruct o as [p c | p | p x y | p key value | p arg];
    try (apply view_stepIn; intros; discriminate).
  by apply view_setShapeIn_unshared.
Qed.

(** When no shape object is shared, a run on the store with references is
    the run on the paths with their shapes. *)
Lemma view_runIn_unshared stack ops : forall s,
  unshared (shapeRef s) ->
  view (runIn stack ops s) = run stack ops (view s).
Proof.
  induction ops as [|o ops IH]; intros s Hu; simpl; [done|].
  fold (runIn stack ops (stepIn stack o s)).
  fold (run stack ops (step stack o (view s))).
  rewrite IH by (by rewrite shapeRef_stepIn).
  by rewrite view_stepIn_unshared.
Qed.

(** X24. Cache coherence, on the store with references. If no shape object
    is held by two paths and, in every path that is clean or has a cached
    rect, the recording holds the commands [buildPath] writes for the
    current shape, then this is so after any sequence of public
    operations. *)
Theorem run_coherent stack ops s :
  unshared (shapeRef s) ->
  (forall q Q, ents (view s) !! q = Some Q -> coherent Q) ->
  forall q Q', ents (view (runIn stack ops s)) !! q = Some Q' -> coherent Q'.
Proof.
  intros Hu H q Q' HQ'. rewrite view_runIn_unshared in HQ' by done.
  pose proof (run_evolves stack ops (view s) q) as He.
  rewrite HQ' in He. inversion He as [Q ? [_ Hc] HQ|]; subst.
  apply Hc. by apply (H q).
Qed.

Lemma clipChain_same_targets (m m' : gmap ident Path) :
  (forall q, option_Forall2 (fun Q Q' => __clipTarget Q' = __clipTarget Q)
               (m !! q) (m' !! q)) ->
  forall stack p, clipChain stack p m' = clipChain stack p m.
Proof.
  intros H. induction stack as [|n IH]; intros p; simpl;
    destruct (H p) as [P P' Hd|]; try done;
    rewrite Hd; destruct (__clipTarget P); by rewrite ?IH.
Qed.

Lemma clipTail_same_targets (m m' : gmap ident Path) stack p :
  (forall q, option_Forall2 (fun Q Q' => __clipTarget Q' = __clipTarget Q)
               (m !! q) (m' !! q)) ->
  clipTail stack p m' = clipTail stack p m.
Proof.
  intros H. unfold clipTail. destruct (H p) as [P P' Hd|]; try done.
  rewrite Hd. destruct (__clipTarget P), stack; try done.
  by apply clipChain_same_targets.
Qed.

Lemma loadShapes_same_targets refs objs refs' objs' (m : gmap ident Path) q :
  option_Forall2 (fun Q Q' => __clipTarget Q' = __clipTarget Q)
    (loadShapes refs objs m !! q) (loadShapes refs' objs' m !! q).
Proof.
  rewrite !loadShapes_lookup. destruct (m !! q) as [Q|]; constructor.
  by destruct Q.
Qed.

(** X27. [setShape] writes into the shape object itself and marks only the
    receiver (and what it clips): afterwards every path that holds the same
    shape object has the written shape and its builder as before; the
    receiver has no cached rect and is dirty; and any other holder that the clip chain of the receiver does
    not reach keeps its [__dirtyPath], its cached rect and its recording as
    they were, so a clean holder stays clean with the recording of the old
    shape. *)
Theorem setShape_shared stack p key value s P l sh :
  ents (paths s) !! p = Some P ->
  shapeRef s !! p = Some l ->
  shapeObjects s !! l = Some sh ->
  forall q Q,
    ents (view s) !! q = Some Q ->
    shapeRef s !! q = Some l ->
    exists Q',
      ents (view (snd (setShapeIn stack p key value s))) !! q = Some Q'
      /\ shape Q' = Some (writtenShape key value sh)
      /\ buildPath Q' = buildPath Q
      /\ (q = p -> _rect Q' = None /\ __dirtyPath Q' = true)
      /\ (q <> p -> ~ q ∈ clipTail stack p (ents (view s)) ->
          __dirtyPath Q' = __dirtyPath Q /\ _rect Q' = _rect Q
          /\ path Q' = path Q).
Proof.
  intros Hp Hl Hsh q Q HQ Hq.
  destruct (view_setShapeIn stack p key value s P l sh Hp Hl Hsh) as (-> & _).
  rewrite dirty_lookup.
  assert (Ht : clipTail stack p
                 (ents (view (mkStore (paths s) (shapeRef s)
                          (<[l := writtenShape key value sh]> (shapeObjects s)))))
               = clipTail stack p (ents (view s))).
  { apply clipTail_same_targets. intros q'. apply loadShapes_same_targets. }
  rewrite Ht. clear Ht. set (tail := clipTail stack p (ents (view s))).
  rewrite view_lookup. rewrite view_lookup in HQ.
  cbn [paths shapeRef shapeObjects].
  destruct (ents (paths s) !! q) as [Q0|]; [|discriminate].
  simpl in HQ. inversion HQ as [HQ0]. simpl.
  unfold shapeAt at 1. rewrite Hq, lookup_insert_eq.
  eexists. split; [reflexivity|].
  destruct (decide (q ∈ tail)) as [Hin|Hnin].
  - split; [by destruct Q0|]. split; [by destruct Q0|].
    split; [by destruct Q0|]. done.
  - destruct (decide (q = p)) as [->|Hne].
    + split; [by destruct Q0|]. split; [by destruct Q0|].
      split; [by destruct Q0|]. done.
    + split; [by destruct Q0|]. split; [by destruct Q0|]. split; [done|].
      intros _ _. by destruct Q0.
Qed.
End PathModel.

(** * Concrete instances *)

(** A proxy whose recording always spans the square from (0, 0) to
    (10, 10), contain predicates that accept the stroke band only, and a
    transform that is the identity. *)
Definition exBounds (px : @PathProxy nat) : BoundingRect.t :=
  BoundingRect.mk 0 0 10 10.

Definition exRectContain (rect : BoundingRect.t) (x y : R) : bool := true.

Definition exContainStroke (pathData : list nat) (lineWidth x y : R) : bool := true.

Definition exContainFill (pathData : list nat) (x y : R) : bool := false.

Definition exToLocal (m : option Matrix.t) (x y : R) : R * R := (x, y).

Definition exStyleExtend (this defaults : Style.t) : Style.t := this.

(** [{fill: 'red'}] *)
Definition styleFilled : Style.t :=
  Style.mk (PaintColor "red") PaintAbsent 1 None 0 None.

(** [{fill: gradient}] *)
Definition styleGradient : Style.t :=
  Style.mk (PaintGradient 0) PaintAbsent 1 None 0 None.

(** [{fill: 'red', stroke: 'black', lineWidth: w}] *)
Definition styleStroked (w : R) : Style.t :=
  Style.mk (PaintColor "red") (PaintColor "black") w None 0 None.

(** [{stroke: 'black', lineWidth: 1, lineDash: [5, 5]}] *)
Definition styleDashed : Style.t :=
  Style.mk PaintAbsent (PaintColor "black") 1 (Some [5%R; 5%R]) 0 None.

Definition emptyWorld : @World nat Z := mkWorld ∅ [].

(** A store with one new path, of the given shape and style. *)
Definition oneWorld (sh : option (gmap string Z)) (st : Style.t) : @World nat Z :=
  commit 0 (newPath (mkOpts sh st)) [] emptyWorld.

(** A path and the object it clips: [1] is the [__clipTarget] of [0]. *)
Definition clipPath : @Path nat Z :=
  mkPath "path" styleFilled None emptyProxy None false false
    (Some (BoundingRect.mk 0 0 10 10)) false (Some 1) (fun _ => []).

Definition clipped : @Path nat Z :=
  mkPath "path" styleFilled None emptyProxy None false false
    (Some (BoundingRect.mk 0 0 10 10)) false None (fun _ => []).

Definition clipWorld : @World nat Z :=
  mkWorld (<[0 := clipPath]> (<[1 := clipped]> ∅)) [].

(** A style-only edit, [path.style = st], which marks nothing. *)
Definition restyle {Cmd Value} (st : Style.t) (P : @Path Cmd Value) : Path :=
  mkPath (type P) st (shape P) (path P) (transform P) (__dirtyPath P)
    (__dirty P) (_rect P) (__zr P) (__clipTarget P) (buildPath P).

(** [Path.extend({shape: {a: 1}})] and the same with an [init] hook that
    sets [this.shape.a = 0]. *)
Definition defaultsA : @Defaults nat Z :=
  mkDefaults None None (Some {["a" := 1%Z]}) None None.

Definition defaultsAInit : @Defaults nat Z :=
  mkDefaults None None (Some {["a" := 1%Z]}) None
    (Some (fun _ P => set_shape (Some (<["a" := 0%Z]> (default ∅ (shape P)))) P)).

(** [Path.extend({shape: {a: 1, b: 2}, init: ...})] with an [init] hook
    that clears [__dirty] and leaves the shape alone. *)
Definition defaultsAB : @Defaults nat Z :=
  mkDefaults None None (Some (<["b" := 2%Z]> {["a" := 1%Z]})) None
    (Some (fun _ P => set_dirty false P)).

(** Construction options [{shape: {a: 5}}]. *)
Definition optsA5 : @Opts Z := mkOpts (Some {["a" := 5%Z]}) styleFilled.

(** * The claims on the instances *)

Lemma styleStroked_hasStroke (w : R) : (w > 0)%R -> pathHasStroke (styleStroked w) = true.
Proof. intros H. unfold pathHasStroke. simpl. by apply Rgtb_true. Qed.

Lemma styleDashed_hasStroke : pathHasStroke styleDashed = true.
Proof. unfold pathHasStroke. simpl. apply Rgtb_true. lra. Qed.

(** C1 (as stated) fails: on a new path, [getBoundingRect] caches a rect
    and leaves [__dirtyPath] set. *)
Lemma rect_cached_while_dirty :
  exists P,
    ents (run exBounds exRectContain exContainStroke exContainFill exToLocal
            0 [OpGetBoundingRect 0] (oneWorld None styleFilled)) !! 0 = Some P
    /\ _rect P = Some (BoundingRect.mk 0 0 10 10)
    /\ __dirtyPath P = true.
Proof. eexists. split; [reflexivity|]. split; reflexivity. Qed.

(** C1, on an instance: after [dirty()] on a new path, a repaint mark and a
    shape change compute no rect, and the path still has no cached rect. *)
Lemma rect_null_until_computed_witness :
  Forall (fun o : @Op Z => readsGeometry 0 o = false)
    [OpDirty 0 (Some false); OpSetShape 0 (KeyName "r") 3%Z]
  /\ is_Some
       (ents (run exBounds exRectContain exContainStroke exContainFill exToLocal 1
                [OpDirty 0 (Some false); OpSetShape 0 (KeyName "r") 3%Z]
                (snd (dirty 1 0 None (oneWorld (Some ∅) styleFilled)))) !! 0)
  /\ invalidated
       (run exBounds exRectContain exContainStroke exContainFill exToLocal 1
          [OpDirty 0 (Some false); OpSetShape 0 (KeyName "r") 3%Z]
          (snd (dirty 1 0 None (oneWorld (Some ∅) styleFilled)))) 0.
Proof.
  assert (Hf : Forall (fun o : @Op Z => readsGeometry 0 o = false)
                 [OpDirty 0 (Some false); OpSetShape 0 (KeyName "r") 3%Z]).
  { repeat constructor. }
  split; [exact Hf|]. split.
  - eexists. vm_compute. reflexivity.
  - apply (proj1 (proj2 (rect_null_until_computed exBounds exRectContain
             exContainStroke exContainFill exToLocal 1 0 _ Hf))).
    discriminate.
Defined.

(** The path of the C3 instance: a new path with a gradient fill, and the
    same path after a first [brush]. *)
Definition gradientPath : @Path nat Z := newPath (mkOpts None styleGradient).

Definition gradientPathPainted : @Path nat Z :=
  snd (fst (brush exBounds true gradientPath)).

(** C3 (as stated) fails on the second paint of a path with a gradient
    fill: the path is no longer dirty, the paint is a pure replay, and no
    [updateCanvasGradient] is called. *)
Lemma brush_replay_skips_gradient :
  pathHasFill (style gradientPathPainted) = true
  /\ Style.fill (style gradientPathPainted) = PaintGradient 0
  /\ __dirtyPath gradientPathPainted = false
  /\ snd (brush exBounds true gradientPathPainted)
     = [CtxSave; StyleBind; SetTransform; CtxBeginPath; ProxyRebuildPath;
        ProxyFill; CtxRestore].
Proof. repeat split; reflexivity. Qed.

(** C3, on an instance: the first paint of the new path resolves the
    gradient before the rebuild begins. *)
Lemma brush_gradient_only_when_dirty_witness :
  exists pre post,
    snd (brush exBounds true gradientPath) = pre ++ ProxyBeginPath true :: post
    /\ In (UpdateCanvasGradient 0) pre
    /\ ~ In (ProxyBeginPath true) pre
    /\ In BuildPath post.
Proof.
  exact (brush_gradient_only_when_dirty exBounds true gradientPath 0
           (or_introl (conj eq_refl eq_refl))).
Defined.

(** The path of the C4 counterexample: a dashed stroke, marked dirty. *)
Definition dashedPath : @Path nat Z :=
  markDirty (Some true) (newPath (mkOpts None styleDashed)).

(** C4 (as stated) fails for a dashed stroke on a context without
    [setLineDash]: the second [brush] calls [buildPath] again. *)
Lemma second_brush_rebuilds_software_dash :
  exists P3 evs1 P4 evs2,
    brush exBounds false dashedPath = (tt, P3, evs1)
    /\ brush exBounds false P3 = (tt, P4, evs2)
    /\ In BuildPath evs2
    /\ ~ In ProxyRebuildPath evs2.
Proof.
  destruct (brush_dirty exBounds false dashedPath eq_refl)
    as (P3 & pre & post & Hb1 & Hd3 & Hst3 & _).
  destruct (brush_clean exBounds false P3 Hd3) as (P4 & evs2 & Hb2 & _ & _ & _ & Hrep).
  exists P3, (pre ++ ProxyBeginPath true :: post), P4, evs2.
  split; [exact Hb1|]. split; [exact Hb2|].
  rewrite Hst3 in Hrep. unfold softwareDash in Hrep. simpl in Hrep.
  rewrite styleDashed_hasStroke in Hrep. exact Hrep.
Qed.

(** C4, on an instance: a filled path, one shape change, a geometry-dirty
    mark, and two paints on a context with [setLineDash]; the second paint
    replays. *)
Lemma brush_twice_after_dirty_witness :
  let w2 :=
    snd (dirty 1 0 (Some true)
           (run exBounds exRectContain exContainStroke exContainFill exToLocal 1
              [OpSetShape 0 (KeyName "r") 3%Z]
              (oneWorld (Some ∅) styleFilled))) in
  let w3 := snd (invoke 0 (brush exBounds true) w2) in
  let w4 := snd (invoke 0 (brush exBounds true) w3) in
  exists evs1 evs2 P3,
    log w3 = log w2 ++ map (pair 0) evs1
    /\ In BuildPath evs1 /\ ~ In ProxyRebuildPath evs1
    /\ ents w3 !! 0 = Some P3 /\ __dirtyPath P3 = false
    /\ log w4 = log w3 ++ map (pair 0) evs2
    /\ In ProxyRebuildPath evs2 /\ ~ In BuildPath evs2.
Proof.
  exact (brush_twice_after_dirty exBounds exRectContain exContainStroke
           exContainFill exToLocal 1 (oneWorld (Some ∅) styleFilled) 0
           (newPath (mkOpts (Some ∅) styleFilled))
           [(KeyName "r", 3%Z)] true true eq_refl).
Defined.

(** The calls of that run, in order: the [dirty] of [setShape], the
    [dirty(true)], the paint that rebuilds and the paint that replays. *)
Lemma two_paints_log :
  log (run exBounds exRectContain exContainStroke exContainFill exToLocal 1
         [OpSetShape 0 (KeyName "r") 3%Z; OpDirty 0 (Some true);
          OpBrush 0 true; OpBrush 0 true]
         (oneWorld (Some ∅) styleFilled))
  = map (pair 0)
      [DirtyCall (Some true); DirtyCall (Some true);
       CtxSave; StyleBind; SetTransform; ProxyBeginPath true; BuildPath;
       ProxyFill; CtxRestore;
       CtxSave; StyleBind; SetTransform; CtxBeginPath; ProxyRebuildPath;
       ProxyFill; CtxRestore].
Proof. vm_compute. reflexivity. Qed.

(** The path of the C5 counterexample: the bounds are computed and cached
    with line width 1, then the style is changed to line width 10. *)
Definition thinPath : @Path nat Z := newPath (mkOpts None (styleStroked 1)).

Definition widenedPath : @Path nat Z :=
  restyle (styleStroked 10) (snd (fst (getBoundingRect exBounds thinPath))).

Lemma Rmax_5_left (w : R) : (w <= 5)%R -> Rmax w 5 = 5%R.
Proof. intros H. by apply Rmax_right. Qed.

Lemma Rmax_5_right (w : R) : (5 <= w)%R -> Rmax w 5 = w.
Proof. intros H. by apply Rmax_left. Qed.

(** C5 (as stated) fails on a path whose rect is cached: the path is
    stroke-active with line width 10 and no transform, the raw bounds are 10
    wide, and [getBoundingRect] answers the cached width 15, not 20. *)
Lemma getBoundingRect_answers_cached_rect :
  pathHasStroke (style widenedPath) = true
  /\ transform widenedPath = None
  /\ BoundingRect.width (fst (fst (getBoundingRect exBounds widenedPath))) = 15%R
  /\ (BoundingRect.width (exBounds (currentGeometry widenedPath))
      + Rmax (Style.lineWidth (style widenedPath)) 5 = 20)%R.
Proof.
  assert (Hc : widenedPath =
    restyle (styleStroked 10)
      (set_rect (Some (boundsOf exBounds thinPath))
         (set_path (currentGeometry thinPath) thinPath))).
  { unfold widenedPath.
    by rewrite (getBoundingRect_fresh exBounds thinPath eq_refl). }
  rewrite Hc. clear Hc.
  split; [apply styleStroked_hasStroke; lra|]. split; [reflexivity|].
  split.
  - erewrite getBoundingRect_cached by reflexivity.
    simpl. unfold boundsOf. simpl. rewrite styleStroked_hasStroke by lra. simpl.
    rewrite effectiveLineWidth_unscaled by reflexivity.
    rewrite Rmax_5_left by lra. lra.
  - simpl. rewrite Rmax_5_right by lra. lra.
Qed.

(** C5, on an instance: line width 1 on the 10 by 10 square gives the
    square from (-2.5, -2.5) with sides 15. *)
Lemma getBoundingRect_stroke_inflation_witness :
  pathHasStroke (style thinPath) = true
  /\ BoundingRect.width (fst (fst (getBoundingRect exBounds thinPath))) = 15%R
  /\ BoundingRect.height (fst (fst (getBoundingRect exBounds thinPath))) = 15%R
  /\ BoundingRect.x (fst (fst (getBoundingRect exBounds thinPath))) = (-2.5)%R
  /\ BoundingRect.y (fst (fst (getBoundingRect exBounds thinPath))) = (-2.5)%R.
Proof.
  assert (Hs : pathHasStroke (style thinPath) = true)
    by (apply styleStroked_hasStroke; lra).
  destruct (getBoundingRect_stroke_inflation exBounds thinPath Hs
              (or_introl eq_refl)) as [H _].
  destruct (H eq_refl) as (Hw & Hh & Hx & Hy & _).
  assert (Hm : Rmax (Style.lineWidth (style thinPath)) 5 = 5%R)
    by (apply Rmax_5_left; simpl; lra).
  rewrite Hm in Hw, Hh, Hx, Hy. simpl in Hw, Hh, Hx, Hy.
  split; [exact Hs|].
  split; [rewrite Hw; lra|]. split; [rewrite Hh; lra|].
  split; [rewrite Hx; lra | rewrite Hy; lra].
Defined.

(** The path of the C6 instance: fill and stroke active, a rect cached. *)
Definition strokedCachedPath : @Path nat Z :=
  mkPath "path" (styleStroked 1) None emptyProxy None false false
    (Some (BoundingRect.mk 0 0 10 10)) false None (fun _ => []).

(** The same path under the transform that doubles. *)
Definition doubledCachedPath : @Path nat Z :=
  mkPath "path" (styleStroked 1) None emptyProxy
    (Some (Matrix.mk 2 0 0 2 0 0)) false false
    (Some (BoundingRect.mk 0 0 10 10)) false None (fun _ => []).

(** The local point under a transform that scales the two axes. *)
Definition exToLocalScaled (m : option Matrix.t) (x y : R) : R * R :=
  match m with
  | Some t => ((x / Matrix.m0 t)%R, (y / Matrix.m3 t)%R)
  | None => (x, y)
  end.

(** C6, on two instances: the stroke predicate accepts the point and the
    fill predicate does not; [contain] answers true and the fill predicate is
    not called. With line width 1 and no transform the stroke is tested at
    width 5, at the point (3, 4); under the transform that doubles it is
    tested at width 2.5, at the local point of (6, 8). *)
Lemma contain_stroke_then_fill_witness :
  contain exBounds exRectContain exContainStroke exContainFill exToLocal
    3 4 strokedCachedPath
  = (true, strokedCachedPath, [ContainStroke 5 3 4])
  /\ contain exBounds exRectContain exContainStroke exContainFill exToLocalScaled
       6 8 doubledCachedPath
     = (true, doubledCachedPath, [ContainStroke 2.5 (6 / 2) (8 / 2)]).
Proof.
  assert (Hs : pathHasStroke (styleStroked 1) = true)
    by (apply styleStroked_hasStroke; lra).
  assert (H1 : (Rmax (1 * 1) 5 / 1 = 5)%R)
    by (rewrite Rmax_5_left by lra; lra).
  assert (H2 : (Rmax (1 * 2) 5 / 2 = 2.5)%R)
    by (rewrite Rmax_5_left by lra; lra).
  split.
  - rewrite (proj1 (contain_stroke_then_fill exBounds exRectContain
               exContainStroke exContainFill exToLocal strokedCachedPath 3 4
               (BoundingRect.mk 0 0 10 10) strokedCachedPath [] Hs eq_refl
               (getBoundingRect_cached exBounds strokedCachedPath _ eq_refl)
               eq_refl)).
    simpl. rewrite H1. reflexivity.
  - rewrite (proj1 (contain_stroke_then_fill exBounds exRectContain
               exContainStroke exContainFill exToLocalScaled doubledCachedPath
               6 8 (BoundingRect.mk 0 0 10 10) doubledCachedPath [] Hs eq_refl
               (getBoundingRect_cached exBounds doubledCachedPath _ eq_refl)
               eq_refl)).
    simpl transform. rewrite getLineScale_double. simpl. rewrite H2.
    reflexivity.
Defined.

(** C7 (as stated) fails when the definition has an [init] hook that writes
    the shape: the options supply [a = 5], and the new object ends with
    [a = 0]. *)
Lemma extend_init_overwrites_shape :
  opts_shape optsA5 ≫= (fun supplied => supplied !! "a") = Some 5%Z
  /\ shape (extend exStyleExtend defaultsAInit optsA5)
       ≫= (fun sh => sh !! "a") = Some 0%Z.
Proof. split; vm_compute; reflexivity. Qed.

(** C7, on an instance: [extend({shape: {a: 1, b: 2}, init: ...})], with
    an [init] hook that leaves the shape alone, constructed with
    [{shape: {a: 5}}], has [shape.a = 5] and [shape.b = 2]. *)
Lemma extend_keeps_supplied_shape_witness :
  exists sh,
    shape (extend exStyleExtend defaultsAB optsA5) = Some sh
    /\ sh !! "a" = Some 5%Z
    /\ sh !! "b" = Some 2%Z.
Proof.
  destruct (extend_keeps_supplied_shape exStyleExtend defaultsAB optsA5
              (<["b" := 2%Z]> {["a" := 1%Z]}) eq_refl) as (sh & Hsh & Hl).
  { intros init P H. inversion H. reflexivity. }
  exists sh. split; [exact Hsh|].
  split; rewrite Hl; vm_compute; reflexivity.
Defined.

(** The example of the specification, computed: no [init] hook, default
    [{a: 1}], options [{shape: {a: 5}}]. *)
Lemma extend_example :
  shape (extend exStyleExtend defaultsA optsA5) ≫= (fun sh => sh !! "a")
  = Some 5%Z.
Proof. vm_compute. reflexivity. Qed.

(** C8, on an instance: [dirty(false)] on the clip path marks the clipped
    object and returns. *)
Lemma dirty_marks_clip_target_witness :
  (exists E', ents (snd (dirty 1 0 (Some false) clipWorld)) !! 1 = Some E'
              /\ __dirty E' = true)
  /\ fst (dirty 1 0 (Some false) clipWorld) = Returned tt.
Proof.
  destruct (dirty_marks_clip_target 0 clipWorld 0 clipPath 1 clipped
              (Some false) eq_refl eq_refl eq_refl)
    as [(E' & evs & H1 & H2 & _) Hret].
  split; [exists E'; split; [exact H1 | exact H2] |].
  apply Hret. vm_compute. reflexivity.
Defined.

(** The calls of that run: the [dirty(false)] on the clip path, then the
    [dirty()] on the clipped object. *)
Lemma dirty_clip_log :
  log (snd (dirty 1 0 (Some false) clipWorld))
  = [(0, DirtyCall (Some false)); (1, DirtyCall None)].
Proof. vm_compute. reflexivity. Qed.

(** Two paths that clip each other: the walk never ends, the call stack
    runs out, and both objects are marked by then. *)
Definition cyclePath (target : ident) : @Path nat Z :=
  mkPath "path" styleFilled None emptyProxy None false false None false
    (Some target) (fun _ => []).

Definition cycleWorld : @World nat Z :=
  mkWorld (<[0 := cyclePath 1]> (<[1 := cyclePath 0]> ∅)) [].

Lemma dirty_cycle_overflows :
  fst (dirty 3 0 (Some false) cycleWorld) = RangeError
  /\ __dirty <$> ents (snd (dirty 3 0 (Some false) cycleWorld)) !! 0 = Some true
  /\ __dirty <$> ents (snd (dirty 3 0 (Some false) cycleWorld)) !! 1 = Some true.
Proof. repeat split; vm_compute; reflexivity. Qed.

(** C9, on an instance: a path built without a shape. *)
Lemma setShape_without_shape_witness :
  setShape 1 0 (KeyName "r") 3%Z (oneWorld None styleFilled)
  = (Returned 0, oneWorld None styleFilled).
Proof.
  exact (setShape_without_shape 1 (oneWorld None styleFilled) 0
           (newPath (mkOpts None styleFilled)) (KeyName "r") 3%Z
           eq_refl eq_refl).
Defined.

(** C10, on an instance: after [dirty(false)] on the clip path, the clipped
    object has lost its cached rect and has [__dirtyPath] set, and the clip
    path has kept both. *)
Lemma dirty_false_invalidates_clip_target_witness :
  (exists E', ents (snd (dirty 1 0 (Some false) clipWorld)) !! 1 = Some E'
              /\ __dirtyPath E' = true /\ _rect E' = None)
  /\ (exists P', ents (snd (dirty 1 0 (Some false) clipWorld)) !! 0 = Some P'
                 /\ __dirtyPath P' = false
                 /\ _rect P' = Some (BoundingRect.mk 0 0 10 10)).
Proof.
  destruct (dirty_false_invalidates_clip_target 0 clipWorld 0 clipPath 1 clipped
              eq_refl eq_refl eq_refl)
    as [(E' & evs & H1 & H2 & H3 & _) Hself].
  split; [exists E'; split; [exact H1 | split; [exact H2 | exact H3]] |].
  destruct Hself as (P' & HP' & Hd & Hr & _).
  { vm_compute. intros [H | []]. discriminate H. }
  exists P'. split; [exact HP' | split; [exact Hd | exact Hr]].
Defined.

(** * The further properties on instances *)

(** The value of [undefined], and a base [attrKV] that ignores the call. *)
Definition exUndefined : Z := (-1)%Z.

Definition exBaseAttrKV (stack : nat) (p : ident) (key : string)
    (value : @ShapeKey Z) (w : @World nat Z) : Completion unit * @World nat Z :=
  (Returned tt, w).

(** A store with one new path that has an empty shape. *)
Definition shapedPath : @Path nat Z := newPath (mkOpts (Some ∅) styleFilled).

Definition shapedWorld : @World nat Z := oneWorld (Some ∅) styleFilled.

Lemma shapedWorld_lookup : ents shapedWorld !! 0 = Some shapedPath.
Proof. vm_compute. reflexivity. Qed.

Lemma clipWorld_closed : closedStore (ents clipWorld).
Proof.
  intros q Q e Hq He. unfold clipWorld in *. simpl in *.
  destruct (decide (q = 0)) as [->|H0].
  - rewrite lookup_insert_eq in Hq. inversion Hq; subst Q.
    simpl in He. inversion He; subst e. eexists. vm_compute. reflexivity.
  - rewrite lookup_insert_ne in Hq by done.
    destruct (decide (q = 1)) as [->|H1].
    + rewrite lookup_insert_eq in Hq. inversion Hq; subst Q. discriminate He.
    + rewrite lookup_insert_ne in Hq by done. by rewrite lookup_empty in Hq.
Qed.

Lemma cycleWorld_closed : closedStore (ents cycleWorld).
Proof.
  intros q Q e Hq He. unfold cycleWorld in *. simpl in *.
  destruct (decide (q = 0)) as [->|H0].
  - rewrite lookup_insert_eq in Hq. inversion Hq; subst Q.
    simpl in He. inversion He; subst e. eexists. vm_compute. reflexivity.
  - rewrite lookup_insert_ne in Hq by done.
    destruct (decide (q = 1)) as [->|H1].
    + rewrite lookup_insert_eq in Hq. inversion Hq; subst Q.
      simpl in He. inversion He; subst e. eexists. vm_compute. reflexivity.
    + rewrite lookup_insert_ne in Hq by done. by rewrite lookup_empty in Hq.
Qed.

(** X19, on two instances: the clip chain of one link ends within a stack
    of one, and [dirty] returns; the chain of two paths that clip each other
    never ends, and [dirty] ends in a [RangeError] whatever the stack. *)
Lemma dirty_returns_iff_witness :
  closedStore (ents clipWorld)
  /\ is_Some (ents clipWorld !! 0)
  /\ fst (dirty 1 0 None clipWorld) = Returned tt
  /\ fst (dirty 7 0 None cycleWorld) = RangeError.
Proof.
  assert (H0 : is_Some (ents clipWorld !! 0))
    by (eexists; vm_compute; reflexivity).
  assert (H1 : is_Some (ents cycleWorld !! 0))
    by (eexists; vm_compute; reflexivity).
  split; [exact clipWorld_closed|]. split; [exact H0|]. split.
  - rewrite (dirty_returns_iff 1 0 None clipWorld clipWorld_closed H0).
    vm_compute. reflexivity.
  - rewrite (dirty_returns_iff 7 0 None cycleWorld cycleWorld_closed H1).
    vm_compute. reflexivity.
Defined.

(** X20, on an instance: [setShape('r', 3)] on the path with the empty
    shape. *)
Lemma setShape_key_witness :
  exists P' sh',
    ents (snd (setShape 1 0 (KeyName "r") 3%Z shapedWorld)) !! 0 = Some P'
    /\ shape P' = Some sh'
    /\ sh' !! "r" = Some 3%Z
    /\ _rect P' = None /\ __dirtyPath P' = true /\ __dirty P' = true.
Proof.
  destruct (setShape_key 1 0 "r" 3%Z shapedWorld shapedPath ∅
              shapedWorld_lookup eq_refl)
    as (P' & sh' & H1 & H2 & H3 & _ & H4 & H5 & H6 & _).
  exists P', sh'. repeat split; assumption.
Defined.

(** X21, on an instance: [setShape({r: 3, cx: 1})] on the same path. *)
Lemma setShape_object_witness :
  exists P' sh',
    ents (snd (setShape 1 0 (KeyObject (<["cx" := 1%Z]> {["r" := 3%Z]})) 0%Z
                 shapedWorld)) !! 0 = Some P'
    /\ shape P' = Some sh'
    /\ sh' !! "r" = Some 3%Z
    /\ sh' !! "cx" = Some 1%Z
    /\ _rect P' = None /\ __dirtyPath P' = true.
Proof.
  destruct (setShape_object 1 0 (<["cx" := 1%Z]> {["r" := 3%Z]}) 0%Z
              shapedWorld shapedPath ∅ shapedWorld_lookup eq_refl)
    as (P' & sh' & H1 & H2 & H3 & H4 & H5 & _).
  exists P', sh'. split; [exact H1|]. split; [exact H2|].
  split; [rewrite H3; vm_compute; reflexivity|].
  split; [rewrite H3; vm_compute; reflexivity|].
  split; assumption.
Defined.

(** X22, on an instance: [attrKV('shape', 'r')] makes ['r'] a key of the
    shape, holding [undefined]. *)
Lemma attrKV_shape_witness :
  exists P' sh',
    ents (snd (attrKV exUndefined exBaseAttrKV 1 0 "shape" (KeyName "r")
                 shapedWorld)) !! 0 = Some P'
    /\ shape P' = Some sh'
    /\ sh' !! "r" = Some exUndefined
    /\ _rect P' = None /\ __dirtyPath P' = true.
Proof.
  destruct (proj2 (attrKV_shape exUndefined exBaseAttrKV 1 0 (KeyName "r")
                     shapedWorld shapedPath shapedWorld_lookup) ∅ eq_refl)
    as (P' & sh' & H1 & H2 & _ & H3 & H4 & H5).
  exists P', sh'. repeat split; assumption.
Defined.

(** [Path.extend({type: 'circle', shape: {r: 1}, buildPath: ...})], whose
    [buildPath] records the radius. *)
Definition defaultsCircle : @Defaults nat Z :=
  mkDefaults (Some "circle") None (Some {["r" := 1%Z]})
    (Some (fun sh => [Z.to_nat (default 0%Z (sh ≫= (fun s => s !! "r")))]))
    None.

(** X25, on an instance: a circle constructed with [{shape: {r: 5}}] is
    built from the radius five on its first paint. *)
Lemma extend_first_brush_witness :
  def_init defaultsCircle = None
  /\ data (path (snd (fst (brush exBounds true
                             (extend exStyleExtend defaultsCircle
                                (mkOpts (Some {["r" := 5%Z]}) styleFilled))))))
     = [5%nat]
  /\ In BuildPath
       (snd (brush exBounds true
               (extend exStyleExtend defaultsCircle
                  (mkOpts (Some {["r" := 5%Z]}) styleFilled)))).
Proof.
  destruct (extend_first_brush exBounds exStyleExtend defaultsCircle
              (mkOpts (Some {["r" := 5%Z]}) styleFilled) true eq_refl)
    as (Hd & Hb & _).
  split; [reflexivity|]. split; [|exact Hb].
  rewrite Hd. vm_compute. reflexivity.
Defined.

(** A new path with a black stroke of line width zero. *)
Definition zeroWidthPath : @Path nat Z := newPath (mkOpts None (styleStroked 0)).

(** X26, on an instance: the stroke of line width zero is inactive, and the
    rect is the recorded square. *)
Lemma inactive_stroke_witness :
  (Style.lineWidth (style zeroWidthPath) <= 0)%R
  /\ fst (fst (getBoundingRect exBounds zeroWidthPath))
     = exBounds (currentGeometry zeroWidthPath).
Proof.
  assert (H : (Style.lineWidth (style zeroWidthPath) <= 0)%R) by (simpl; lra).
  split; [exact H|].
  exact (proj1 (proj2 (inactive_stroke exBounds exRectContain exContainStroke
                         exContainFill exToLocal true 0 0 zeroWidthPath
                         (or_intror (or_intror H)))) eq_refl).
Defined.

(** A circle of the kind above, as constructed. *)
Definition circlePath : @Path nat Z :=
  extend exStyleExtend defaultsCircle (mkOpts None styleFilled).

(** Two circles, each holding a shape object of its own, [{r: 5}] and
    [{r: 7}]. *)
Definition ownShapes : @Store nat Z :=
  mkStore (mkWorld (<[0 := circlePath]> (<[1 := circlePath]> ∅)) [])
    (<[0 := 0]> (<[1 := 1]> ∅))
    (<[0 := {["r" := 5%Z]}]> (<[1 := {["r" := 7%Z]}]> ∅)).

(** Two circles that hold the one shape object [{r: 5}], both painted. *)
Definition sharedShape : @Store nat Z :=
  mkStore (mkWorld (<[0 := circlePath]> (<[1 := circlePath]> ∅)) [])
    (<[0 := 0]> (<[1 := 0]> ∅))
    (<[0 := {["r" := 5%Z]}]> ∅).

Definition sharedShapePainted : @Store nat Z :=
  runIn exBounds exRectContain exContainStroke exContainFill exToLocal 1
    [OpBrush 0 true; OpBrush 1 true] sharedShape.

Lemma ownShapes_unshared : unshared (shapeRef ownShapes).
Proof.
  intros p q l Hp Hq. simpl in Hp, Hq.
  apply lookup_insert_Some in Hp as [[<- <-] | [? Hp]];
    [| apply lookup_insert_Some in Hp as [[<- <-] | [? Hp]];
       [| by rewrite lookup_empty in Hp]];
    (apply lookup_insert_Some in Hq as [[<- Hl] | [? Hq]];
     [| apply lookup_insert_Some in Hq as [[<- Hl] | [? Hq]];
        [| by rewrite lookup_empty in Hq]]);
    done.
Qed.

Lemma ownShapes_coherent q (Q : @Path nat Z) :
  ents (view ownShapes) !! q = Some Q -> coherent Q.
Proof.
  intros H. rewrite view_lookup in H.
  apply fmap_Some in H as (Q0 & H0 & ->). simpl in H0.
  apply lookup_insert_Some in H0 as [[_ <-] | [_ H0]];
    [| apply lookup_insert_Some in H0 as [[_ <-] | [_ H0]];
       [| by rewrite lookup_empty in H0]];
    intros [Hd | [r Hr]]; discriminate.
Qed.

(** X24, on an instance: two circles with shapes of their own are painted,
    the radius of the first is set to three, and the first is painted again;
    it is clean and its recording is the one its builder writes for the new
    shape, the radius three. *)
Lemma run_coherent_witness :
  unshared (shapeRef ownShapes)
  /\ exists Q',
       ents (view (runIn exBounds exRectContain exContainStroke exContainFill
                     exToLocal 1
                     [OpBrush 0 true; OpBrush 1 true;
                      OpSetShape 0 (KeyName "r") 3%Z; OpBrush 0 true]
                     ownShapes)) !! 0 = Some Q'
       /\ __dirtyPath Q' = false
       /\ data (path Q') = buildPath Q' (shape Q')
       /\ buildPath Q' (shape Q') = [3%nat].
Proof.
  split; [exact ownShapes_unshared|].
  eexists. split; [vm_compute; reflexivity|]. split; [reflexivity|].
  split; [|vm_compute; reflexivity].
  apply (run_coherent exBounds exRectContain exContainStroke exContainFill
           exToLocal 1
           [OpBrush 0 true; OpBrush 1 true;
            OpSetShape 0 (KeyName "r") 3%Z; OpBrush 0 true]
           ownShapes ownShapes_unshared ownShapes_coherent 0).
  - vm_compute. reflexivity.
  - left. reflexivity.
Defined.

(** X27, on an instance: two painted circles hold one shape object, and the
    radius is set to three through the first. The second has the new
    radius, is still clean, and still has the recording of the radius five,
    where its builder writes the radius three for its shape. *)
Lemma setShape_shared_witness :
  exists Q',
    ents (view (snd (setShapeIn 1 0 (KeyName "r") 3%Z sharedShapePainted))) !! 1
    = Some Q'
    /\ shape Q' = Some (<["r" := 3%Z]> {["r" := 5%Z]})
    /\ __dirtyPath Q' = false
    /\ data (path Q') = [5%nat]
    /\ buildPath Q' (shape Q') = [3%nat].
Proof.
  assert (HP : { P | ents (paths sharedShapePainted) !! 0 = Some P })
    by (eexists; vm_compute; reflexivity).
  destruct HP as [P HP].
  assert (HQ : { Q | ents (view sharedShapePainted) !! 1 = Some Q
                     /\ __dirtyPath Q = false
                     /\ data (path Q) = [5%nat]
                     /\ buildPath Q (Some (<["r" := 3%Z]> {["r" := 5%Z]}))
                        = [3%nat] }).
  { eexists. split; [vm_compute; reflexivity|].
    repeat split; vm_compute; reflexivity. }
  destruct HQ as (Q & HQ & Hd & Hdata & Hb).
  assert (Ht : clipTail 1 0 (ents (view sharedShapePainted)) = [])
    by (vm_compute; reflexivity).
  destruct (setShape_shared 1 0 (KeyName "r") 3%Z sharedShapePainted P 0
              {["r" := 5%Z]} HP eq_refl eq_refl 1 Q HQ eq_refl)
    as (Q' & H1 & H2 & H3 & _ & H4).
  destruct H4 as (H5 & _ & H6).
  { discriminate. }
  { rewrite Ht. apply not_elem_of_nil. }
  exists Q'. split; [exact H1|]. split; [exact H2|].
  split; [by rewrite H5|]. split; [by rewrite H6|].
  rewrite H2, H3. exact Hb.
Defined.
